(** * A shallow embedding of go-billy-siva's [sivaFS] (sivafs package).

    The filesystem exposes directories over the flat, append-only index of a
    siva archive.  Strings are byte strings ([list ascii]); the Go standard
    library helpers the package calls ([path.Clean], [path.Join],
    [filepath.Dir], [filepath.Match]) and the go-siva index operations
    ([Index.Filter], [Index.Find], [Index.Glob]) are embedded as they behave,
    since they decide what [Stat], [ReadDir] and [Remove] see. *)

From Stdlib Require Import ZArith NArith Ascii String List Bool Lia.
From stdpp Require Import base list gmap strings.
Import ListNotations.

Open Scope list_scope.

(* ------------------------------------------------------------------ *)
(** ** Byte strings *)

Definition str := list ascii.

(** A Go string literal, as its bytes. *)
Definition lit (s : string) : str := list_ascii_of_string s.

Definition slash : ascii := "/"%char.
Definition dot : ascii := "."%char.
Definition star : ascii := "*"%char.
Definition qmark : ascii := "?"%char.
Definition lbrack : ascii := "["%char.
Definition rbrack : ascii := "]"%char.
Definition bslash : ascii := "\"%char.
Definition caret : ascii := "^"%char.
Definition dash : ascii := "-"%char.
Definition zero_char : ascii := Ascii.zero.

Definition ascii_eqb (a b : ascii) : bool := if ascii_dec a b then true else false.
Definition str_eqb (a b : str) : bool := if List.list_eq_dec ascii_dec a b then true else false.
Definition is_empty (s : str) : bool := match s with [] => true | _ => false end.

(** [strings.Contains(s, "/")] *)
Definition contains_slash (s : str) : bool := existsb (ascii_eqb slash) s.

(** Splitting on ['/'] (the segments of a path, empty ones included) and
    joining them back. *)
Fixpoint split_slash (s : str) : list str :=
  match s with
  | [] => [[]]
  | c :: s' =>
      let r := split_slash s' in
      if ascii_eqb c slash then [] :: r
      else match r with
           | seg :: rest => (c :: seg) :: rest
           | [] => [[c]]
           end
  end.

Fixpoint join_slash (l : list str) : str :=
  match l with
  | [] => []
  | [x] => x
  | x :: l' => x ++ slash :: join_slash l'
  end.

(* ------------------------------------------------------------------ *)
(** ** Go's [path.Clean], [path.Join], [filepath.Dir]

    [Clean] by its four rules: drop empty and ["."] elements, let [".."]
    cancel the preceding non-[".."] element, drop [".."] right after the
    root, and return ["."] for an empty result.  The element stack is kept
    reversed. *)

Definition clean_step (rooted : bool) (stack : list str) (seg : str) : list str :=
  if str_eqb seg [] || str_eqb seg (lit ".") then stack
  else if str_eqb seg (lit "..") then
    match stack with
    | top :: rest => if str_eqb top (lit "..") then seg :: stack else rest
    | [] => if rooted then [] else [seg]
    end
  else seg :: stack.

Definition Clean (p : str) : str :=
  match p with
  | [] => lit "."
  | c :: _ =>
      let rooted := ascii_eqb c slash in
      let body := join_slash (rev (fold_left (clean_step rooted) (split_slash p) [])) in
      if rooted then slash :: body
      else if is_empty body then lit "." else body
  end.

(** [path.Join(a, b)] (and [filepath.Join] on Unix): the non-empty
    elements joined by ['/'], then cleaned. *)
Definition Join2 (a b : str) : str :=
  if is_empty a then (if is_empty b then [] else Clean b)
  else Clean (a ++ slash :: b).

(** The prefix of [p] up to and including its last ['/'] ([[]] if none). *)
Fixpoint upto_last_slash (p : str) : str :=
  match p with
  | [] => []
  | c :: p' =>
      match upto_last_slash p' with
      | [] => if ascii_eqb c slash then [c] else []
      | r => c :: r
      end
  end.

(** [filepath.Dir]: everything before the last separator, cleaned. *)
Definition filepath_Dir (p : str) : str := Clean (upto_last_slash p).

(* ------------------------------------------------------------------ *)
(** ** The package's path helpers (part_000, lines 387-414) *)

(** [strings.HasSuffix(path, "/")] *)
Definition has_slash_suffix (p : str) : bool :=
  match rev p with c :: _ => ascii_eqb c slash | [] => false end.

Definition addTrailingSlash (path : str) : str :=
  if is_empty path then path
  else if has_slash_suffix path then path
  else path ++ [slash].

Definition removeLeadingSlash (path : str) : str :=
  match path with
  | c :: rest => if ascii_eqb c slash then rest else path
  | [] => path
  end.

(** [normalizePath(path) = removeLeadingSlash(filepath.Join("/", path))] *)
Definition normalizePath (path : str) : str :=
  removeLeadingSlash (Join2 [slash] path).

(* ------------------------------------------------------------------ *)
(** ** Go's [filepath.Match] (Unix separator, current Go library)

    Characters are bytes: Go decodes a rune where the pattern has ['?'] or
    a class, which is one byte for ASCII text; the model treats every byte
    as one character. *)

Inductive error :=
| ErrNotSupported                 (* billy.ErrNotSupported *)
| ErrFileWriteModeAlreadyOpen
| ErrNotExist                     (* os.ErrNotExist *)
| ErrBadPattern                   (* filepath.ErrBadPattern *)
| ENOTDIR_err (op path : str)     (* &os.PathError{op, path, syscall.ENOTDIR} *)
| ENOTEMPTY_err (op path : str)   (* &os.PathError{op, path, syscall.ENOTEMPTY} *)
| IOError (code : nat)            (* an error of the backing store or go-siva *)
| ErrClosedWriter                 (* siva.ErrClosedWriter *)
| ErrAlreadyClosed                (* a second Close of a file handle *)
| NilDereference.

(** [scanChunk]: the leading stars, then the chunk up to the next star
    outside a class, then the rest. *)
Fixpoint strip_stars (p : str) : bool * str :=
  match p with
  | c :: p' => if ascii_eqb c star then (true, snd (strip_stars p')) else (false, p)
  | [] => (false, p)
  end.

Fixpoint scan (inrange : bool) (p : str) : str * str :=
  match p with
  | [] => ([], [])
  | c :: p' =>
      if ascii_eqb c bslash then
        match p' with
        | [] => ([c], [])
        | d :: p'' => let '(ch, r) := scan inrange p'' in (c :: d :: ch, r)
        end
      else if ascii_eqb c lbrack then let '(ch, r) := scan true p' in (c :: ch, r)
      else if ascii_eqb c rbrack then let '(ch, r) := scan false p' in (c :: ch, r)
      else if ascii_eqb c star && negb inrange then ([], p)
      else let '(ch, r) := scan inrange p' in (c :: ch, r)
  end.

Definition scanChunk (p : str) : bool * str * str :=
  let '(st, p1) := strip_stars p in
  let '(chunk, rest) := scan false p1 in (st, chunk, rest).

(** [getEsc]: one (possibly escaped) class character; [None] is
    [ErrBadPattern]. *)
Definition getEsc (chunk : str) : option (ascii * str) :=
  match chunk with
  | [] => None
  | c :: rest =>
      if ascii_eqb c dash || ascii_eqb c rbrack then None
      else
        let esc := if ascii_eqb c bslash
                   then match rest with [] => None | r :: n => Some (r, n) end
                   else Some (c, rest) in
        match esc with
        | None => None
        | Some (r, nchunk) => if is_empty nchunk then None else Some (r, nchunk)
        end
  end.

Definition in_range (lo r hi : ascii) : bool :=
  (nat_of_ascii lo <=? nat_of_ascii r) && (nat_of_ascii r <=? nat_of_ascii hi).

(** The range loop of a class; [fuel] bounds the iterations, each of
    which consumes at least one byte of [chunk]. *)
Fixpoint class_loop (fuel : nat) (chunk : str) (r : ascii) (nrange : nat) (m : bool)
  : option (bool * str) :=
  match fuel with
  | 0 => None
  | S fuel' =>
      match chunk with
      | c :: rest => if ascii_eqb c rbrack && (0 <? nrange) then Some (m, rest) else
          match getEsc chunk with
          | None => None
          | Some (lo, ch) =>
              match ch with
              | d :: ch' =>
                  if ascii_eqb d dash then
                    match getEsc ch' with
                    | None => None
                    | Some (hi, ch2) => class_loop fuel' ch2 r (S nrange) (m || in_range lo r hi)
                    end
                  else class_loop fuel' ch r (S nrange) (m || in_range lo r lo)
              | [] => None
              end
          end
      | [] => None
      end
  end.

Inductive chunk_result := ChunkOk (rest : str) | ChunkFail | ChunkErr.

(** [matchChunk]: after a mismatch ([failed]) the loop keeps parsing the
    chunk to report a malformed pattern. *)
Fixpoint matchChunk_loop (fuel : nat) (chunk s : str) (failed : bool) : chunk_result :=
  match fuel with
  | 0 => ChunkErr
  | S fuel' =>
      match chunk with
      | [] => if failed then ChunkFail else ChunkOk s
      | c :: chunk' =>
          let failed := failed || is_empty s in
          let literal (c : ascii) (chunk' : str) :=
            if failed then matchChunk_loop fuel' chunk' s true
            else match s with
                 | x :: s' => matchChunk_loop fuel' chunk' s' (negb (ascii_eqb c x))
                 | [] => ChunkErr
                 end in
          if ascii_eqb c lbrack then
            let '(r, s') := if failed then (zero_char, s)
                            else match s with x :: s' => (x, s') | [] => (zero_char, s) end in
            let '(negated, ch) := match chunk' with
                                  | d :: ch => if ascii_eqb d caret then (true, ch) else (false, chunk')
                                  | [] => (false, chunk')
                                  end in
            match class_loop (S (length ch)) ch r 0 false with
            | None => ChunkErr
            | Some (m, ch') => matchChunk_loop fuel' ch' s' (failed || Bool.eqb m negated)
            end
          else if ascii_eqb c qmark then
            if failed then matchChunk_loop fuel' chunk' s true
            else match s with
                 | x :: s' => matchChunk_loop fuel' chunk' s' (ascii_eqb x slash)
                 | [] => ChunkErr
                 end
          else if ascii_eqb c bslash then
            match chunk' with
            | [] => ChunkErr
            | c' :: chunk'' => literal c' chunk''
            end
          else literal c chunk'
      end
  end.

Definition matchChunk (chunk s : str) : chunk_result :=
  matchChunk_loop (S (length chunk)) chunk s false.

(** The [for i := 0; i < len(name) && name[i] != '/'; i++] loop of a
    star chunk: [None] when it runs out, [Some (inr t)] to go on with the
    name [t], [Some (inl e)] on a malformed chunk. *)
Fixpoint star_loop (chunk pattern nm : str) : option (error + str) :=
  match nm with
  | [] => None
  | c :: rest =>
      if ascii_eqb c slash then None
      else match matchChunk chunk rest with
           | ChunkOk t =>
               if is_empty pattern && negb (is_empty t) then star_loop chunk pattern rest
               else Some (inr t)
           | ChunkErr => Some (inl ErrBadPattern)
           | ChunkFail => star_loop chunk pattern rest
           end
  end.

(** Before answering [false], the rest of the pattern is checked for
    syntax. *)
Fixpoint check_rest (fuel : nat) (p : str) : option error :=
  match fuel with
  | 0 => None
  | S fuel' =>
      match p with
      | [] => None
      | _ => let '(_, chunk, p') := scanChunk p in
             match matchChunk chunk [] with
             | ChunkErr => Some ErrBadPattern
             | _ => check_rest fuel' p'
             end
      end
  end.

Fixpoint match_loop (fuel : nat) (pattern name : str) : error + bool :=
  match fuel with
  | 0 => inl ErrBadPattern
  | S fuel' =>
      match pattern with
      | [] => inr (is_empty name)
      | _ =>
          let '(st, chunk, pattern') := scanChunk pattern in
          if st && is_empty chunk then inr (negb (contains_slash name)) else
          let fallback (r : chunk_result) :=
            match r with
            | ChunkErr => inl ErrBadPattern
            | _ =>
                match (if st then star_loop chunk pattern' name else None) with
                | Some (inl e) => inl e
                | Some (inr t) => match_loop fuel' pattern' t
                | None => match check_rest (length pattern') pattern' with
                          | Some e => inl e
                          | None => inr false
                          end
                end
            end in
          match matchChunk chunk name with
          | ChunkOk t =>
              if is_empty t || negb (is_empty pattern') then match_loop fuel' pattern' t
              else fallback (ChunkOk t)
          | r => fallback r
          end
      end
  end.

Definition Match (pattern name : str) : error + bool :=
  match_loop (S (length pattern)) pattern name.

(* ------------------------------------------------------------------ *)
(** ** The go-siva index

    A header as the archive stores it; the index entry adds only byte
    offsets, which nothing here reads. *)

Record IndexEntry := mkEntry {
  Name : str;
  Mode : N;
  ModTime : N;      (* time.Time; 0 is Go's zero time, before every other *)
  Flags : N;
}.

Definition FlagDeleted : N := 1.

Definition is_deleted (e : IndexEntry) : bool :=
  negb (N.eqb (N.land (Flags e) FlagDeleted) 0).

(** [Index.Filter]: walk the raw index from its end, keep the first entry
    seen for each name (the latest written) unless it is a tombstone, then
    sort the kept entries by data offset.  Entries are written at
    increasing offsets, so that order is the order of the raw index. *)
Fixpoint filter_from (seen : list str) (l : list IndexEntry) : list IndexEntry :=
  match l with
  | [] => []
  | e :: l' =>
      if existsb (str_eqb (Name e)) seen then filter_from seen l'
      else if is_deleted e then filter_from (Name e :: seen) l'
      else e :: filter_from (Name e :: seen) l'
  end.

Definition Filter (index : list IndexEntry) : list IndexEntry :=
  rev (filter_from [] (rev index)).

(** [Index.Find]: the first entry with exactly that name. *)
Definition Find (index : list IndexEntry) (name : str) : option IndexEntry :=
  List.find (fun e => str_eqb (Name e) name) index.

(** [Index.Glob]: the entries whose name matches [pattern] in the sense of
    [filepath.Match], stopping at the first malformed-pattern error. *)
Fixpoint Glob (index : list IndexEntry) (pattern : str) : error + list IndexEntry :=
  match index with
  | [] => inr []
  | e :: index' =>
      match Match pattern (Name e) with
      | inl err => inl err
      | inr m =>
          match Glob index' pattern with
          | inl err => inl err
          | inr rest => inr (if m then e :: rest else rest)
          end
      end
  end.

(* ------------------------------------------------------------------ *)
(** ** The filesystem state and its monad

    [rw] is [fs.rw] (with [fs.f], which the code sets and clears together
    with it): [Some index] while the archive session is open, holding the
    raw index of the archive (entries read at open plus headers written
    since).  [disk] is the index persisted in the backing siva file,
    [clock] what [time.Now()] returns, and [faults] the outcomes of the
    coming calls into the backing store and go-siva: each call takes the
    head, [Some code] makes it fail; once the list is empty every call
    succeeds.  [wclosed] is the [closed] flag of the go-siva writer inside
    [fs.rw]: [rw.Close()] sets it, whether it succeeds or not, and a
    closed writer refuses [WriteHeader], [Flush] and [Close] with
    [ErrClosedWriter]. *)

Record World := mkWorld {
  rw : option (list IndexEntry);
  fileWriteModeOpen : bool;
  disk : list IndexEntry;
  clock : N;
  faults : list (option nat);
  wclosed : bool;
}.

Definition set_rw (r : option (list IndexEntry)) (w : World) : World :=
  mkWorld r (fileWriteModeOpen w) (disk w) (clock w) (faults w) (wclosed w).
Definition set_busy (b : bool) (w : World) : World :=
  mkWorld (rw w) b (disk w) (clock w) (faults w) (wclosed w).
Definition set_disk (d : list IndexEntry) (w : World) : World :=
  mkWorld (rw w) (fileWriteModeOpen w) d (clock w) (faults w) (wclosed w).
Definition set_faults (f : list (option nat)) (w : World) : World :=
  mkWorld (rw w) (fileWriteModeOpen w) (disk w) (clock w) f (wclosed w).
Definition set_wclosed (c : bool) (w : World) : World :=
  mkWorld (rw w) (fileWriteModeOpen w) (disk w) (clock w) (faults w) c.
(** [fs.rw = rw]: a session over a fresh go-siva writer. *)
Definition set_session (index : list IndexEntry) (w : World) : World :=
  mkWorld (Some index) (fileWriteModeOpen w) (disk w) (clock w) (faults w) false.

Inductive result (A : Type) := Ok (a : A) | Err (e : error).
Arguments Ok {A} a.
Arguments Err {A} e.

(** A Go method returning [(A, error)] and mutating the filesystem; the
    mutations done before an error stay. *)
Definition M (A : Type) := World -> result A * World.

Definition ret {A} (a : A) : M A := fun w => (Ok a, w).
Definition throw {A} (e : error) : M A := fun w => (Err e, w).
Definition bind {A B} (m : M A) (k : A -> M B) : M B :=
  fun w => match m w with
           | (Ok a, w') => k a w'
           | (Err e, w') => (Err e, w')
           end.
Definition get : M World := fun w => (Ok w, w).
Definition modify (f : World -> World) : M unit := fun w => (Ok tt, f w).
Definition lift {A} (r : error + A) : M A :=
  fun w => match r with inl e => (Err e, w) | inr a => (Ok a, w) end.
(** [if err := m; err != nil { h(err) }] *)
Definition catch {A} (m : M A) (h : error -> M A) : M A :=
  fun w => match m w with
           | (Err e, w') => h e w'
           | r => r
           end.
(** A call whose error is ignored, as [f.Close()] in [ensureOpen]. *)
Definition ignore {A} (m : M A) : M unit := fun w => (Ok tt, snd (m w)).
(** [defer f()]: [f] runs when [m] returns, whatever it returns. *)
Definition defer {A} (m : M A) (f : World -> World) : M A :=
  fun w => let (r, w') := m w in (r, f w').

Notation "'let!' x ':=' m 'in' k" := (bind m (fun x => k))
  (at level 200, x name, m at level 100, k at level 200).

(** One call into the backing store or go-siva. *)
Definition io_call : M unit :=
  fun w => match faults w with
           | [] => (Ok tt, w)
           | None :: fs => (Ok tt, set_faults fs w)
           | Some c :: fs => (Err (IOError c), set_faults fs w)
           end.

Definition time_Now : M N := fun w => (Ok (clock w), w).

(** [fs.rw.X(...)] on the session; a nil [fs.rw] would panic. *)
Definition with_rw {A} (k : list IndexEntry -> M A) : M A :=
  let! w := get in
  match rw w with
  | Some index => k index
  | None => throw NilDereference
  end.

Definition rw_Index : M (list IndexEntry) :=
  with_rw (fun index => let! _ := io_call in ret index).

(** [if w.closed { return ErrClosedWriter }], at the start of go-siva's
    [WriteHeader], [Flush] and [Close]. *)
Definition check_writer : M unit :=
  let! w := get in if wclosed w then throw ErrClosedWriter else ret tt.

Definition rw_WriteHeader (h : IndexEntry) : M unit :=
  with_rw (fun index =>
    let! _ := check_writer in
    let! _ := io_call in modify (set_rw (Some (index ++ [h])))).

Definition rw_Flush : M unit := with_rw (fun _ => let! _ := check_writer in io_call).

Definition rw_Get (e : IndexEntry) : M unit := with_rw (fun _ => io_call).

(** [rw.Close()] writes the index out to the backing file; its
    [defer func() { w.closed = true }()] closes the writer whatever the
    outcome. *)
Definition rw_Close : M unit :=
  with_rw (fun index =>
    defer (let! _ := check_writer in
           let! _ := io_call in modify (set_disk index))
          (set_wclosed true)).

(** [fs.underlying.OpenFile], [siva.NewReaderWriter], [f.Close()]. *)
Definition underlying_OpenFile : M unit := io_call.
Definition siva_NewReaderWriter : M (list IndexEntry) :=
  let! _ := io_call in let! w := get in ret (disk w).
Definition f_Close : M unit := io_call.

(* ------------------------------------------------------------------ *)
(** ** Session management (part_000, lines 220-259) *)

Definition ensureOpen : M unit :=
  let! w := get in
  match rw w with
  | Some _ => ret tt
  | None =>
      let! _ := underlying_OpenFile in
      let! index := catch siva_NewReaderWriter
                      (fun err => let! _ := ignore f_Close in throw err) in
      modify (set_session index)
  end.

Definition ensureClosed : M unit :=
  let! w := get in
  match rw w with
  | None => ret tt
  | Some _ =>
      let! _ := rw_Close in
      let! _ := modify (set_rw None) in
      f_Close
  end.

Definition Sync : M unit := ensureClosed.

(* ------------------------------------------------------------------ *)
(** ** File handles and file infos *)

Definition O_RDONLY : Z := 0.
Definition O_WRONLY : Z := 1.
Definition O_RDWR : Z := 2.
Definition O_CREATE : Z := 64.
Definition O_EXCL : Z := 128.
Definition O_TRUNC : Z := 512.
Definition O_APPEND : Z := 1024.

(** [flag&bit != 0] *)
Definition has (flag bit : Z) : bool := negb (Z.eqb (Z.land flag bit) 0).

(** What [OpenFile] hands out: a write handle ([newFile], carrying the
    [closeFunc] built from [flag]) or a read handle ([openFile]). *)
Inductive File :=
| WriteFile (name : str) (flag : Z)
| ReadFile (name : str) (entry : IndexEntry).

(** [newFileInfo(e)] and [newDirFileInfo(path, modTime)]. *)
Inductive FileInfo :=
| EntryInfo (e : IndexEntry)
| DirInfo (name : str) (modTime : N).

(* ------------------------------------------------------------------ *)
(** ** Opening and creating files (part_000, lines 65-94 and 261-313) *)

(** The [closeFunc] closure of [createFile], over [fs] and [flag]. *)
Definition closeFunc (flag : Z) : M unit :=
  let! w := get in
  match rw w with
  | None => ret tt
  | Some _ =>
      let! _ := (if has flag O_WRONLY || has flag O_RDWR
                 then modify (set_busy false) else ret tt) in
      rw_Flush
  end.

(** Modelled from the spec: file.go, which is not among the sources.
    A handle carries its closed flag [isClosed].  Closing a handle already
    closed fails and changes nothing (the write handle "clears the
    writer-busy flag exactly once even if close is called multiple
    times"); otherwise the handle is closed from then on, whatever the
    outcome, and a write handle runs the [closeFunc] it was built with
    ("closing flushes the owning session and clears the writer-busy
    flag"), while a read handle only releases local state. *)
Definition File_Close (f : File) (isClosed : bool) : M unit :=
  if isClosed then throw ErrAlreadyClosed else
  match f with
  | WriteFile _ flag => closeFunc flag
  | ReadFile _ _ => ret tt
  end.

Definition createFile (path : str) (flag : Z) (mode : N) : M File :=
  if has flag O_RDWR || has flag O_RDONLY then throw ErrNotSupported else
  let! t := time_Now in
  let! _ := rw_WriteHeader (mkEntry path mode t 0) in
  (* defer func() { fs.fileWriteModeOpen = true }() *)
  let! _ := modify (set_busy true) in
  ret (WriteFile path flag).

Definition getIndex : M (list IndexEntry) :=
  let! index := rw_Index in ret (Filter index).

Definition openFile (path : str) (flag : Z) (mode : N) : M File :=
  if has flag O_RDWR || has flag O_WRONLY then throw ErrNotSupported else
  let! index := getIndex in
  match Find index path with
  | None => throw ErrNotExist
  | Some e => let! _ := rw_Get e in ret (ReadFile path e)
  end.

Definition OpenFile (path : str) (flag : Z) (mode : N) : M File :=
  let path := normalizePath path in
  if has flag O_CREATE && negb (has flag O_TRUNC) then throw ErrNotSupported else
  let! _ := ensureOpen in
  if has flag O_CREATE then
    let! w := get in
    if fileWriteModeOpen w then throw ErrFileWriteModeAlreadyOpen
    else createFile path flag mode
  else openFile path flag mode.

Definition create_flags : Z := Z.lor O_WRONLY (Z.lor O_CREATE O_TRUNC).

Definition Create (path : str) : M File := OpenFile path create_flags 438.

Definition Open (path : str) : M File := OpenFile path O_RDONLY 0.

(* ------------------------------------------------------------------ *)
(** ** Directory synthesis (part_000, lines 324-385) *)

(** The latest modification time, from Go's zero time. *)
Definition latest (entries : list IndexEntry) : N :=
  fold_left (fun old e => if N.ltb old (ModTime e) then ModTime e else old) entries 0%N.

Definition listFiles (index : list IndexEntry) (dir : str) : error + list FileInfo :=
  let dir := addTrailingSlash dir in
  match Glob index (dir ++ [star]) with
  | inl err => inl err
  | inr entries => inr (map EntryInfo entries)
  end.

Definition getDir (index : list IndexEntry) (dir : str) : error + option FileInfo :=
  let dir := addTrailingSlash dir in
  match Glob index (Join2 dir [star]) with
  | inl err => inl err
  | inr [] => inr None
  | inr entries => inr (Some (DirInfo (Clean dir) (latest entries)))
  end.

(** The [dirs] map of [listDirs]: parent directory to latest time. *)
Definition add_dir (dirs : gmap str N) (e : IndexEntry) : gmap str N :=
  let d := filepath_Dir (Name e) in
  match dirs !! d with
  | Some old => if N.ltb old (ModTime e) then <[d := ModTime e]> dirs else dirs
  | None => <[d := ModTime e]> dirs
  end.

(** Go ranges over the map in no fixed order; [map_to_list] fixes one. *)
Definition listDirs (index : list IndexEntry) (dir : str) : error + list FileInfo :=
  let dir := addTrailingSlash dir in
  match Glob index (dir ++ [star; slash; star]) with
  | inl err => inl err
  | inr entries =>
      let dirs := fold_left add_dir entries ∅ in
      inr (map (fun '(d, mt) => DirInfo d mt) (map_to_list dirs))
  end.

(* ------------------------------------------------------------------ *)
(** ** The filesystem operations (part_000, lines 96-222) *)

Definition Stat (p : str) : M FileInfo :=
  let p := normalizePath p in
  let! _ := ensureOpen in
  let! index := getIndex in
  match Find index p with
  | Some e => ret (EntryInfo e)
  | None =>
      let! stat := lift (getDir index p) in
      match stat with
      | None => throw ErrNotExist
      | Some s => ret s
      end
  end.

Definition ReadDir (path : str) : M (list FileInfo) :=
  let path := normalizePath path in
  let! _ := ensureOpen in
  let! index := getIndex in
  let! files := lift (listFiles index path) in
  let! dirs := lift (listDirs index path) in
  ret (dirs ++ files).

Definition MkdirAll (filename : str) (perm : N) : M unit :=
  let! _ := ensureOpen in
  let! index := getIndex in
  match Find index filename with
  | Some _ => throw (ENOTDIR_err (lit "mkdir") filename)
  | None => ret tt
  end.

Definition Remove (path : str) : M unit :=
  let path := normalizePath path in
  let! _ := ensureOpen in
  let! index := getIndex in
  match Find index path with
  | Some _ =>
      let! t := time_Now in
      rw_WriteHeader (mkEntry path 0 t FlagDeleted)
  | None =>
      let! dir := lift (getDir index path) in
      match dir with
      | Some _ => throw (ENOTEMPTY_err (lit "remove") path)
      | None => throw ErrNotExist
      end
  end.

Definition Rename (from to : str) : M unit := throw ErrNotSupported.

(** The calls a client can still make once its write handle is closed:
    any operation of the filesystem, closing a read handle, and closing
    the write handle again ([File_Close f true]).  [run] makes them in
    order, going on whatever each one returns. *)
Inductive Call :=
| CStat (p : str)
| CReadDir (p : str)
| CMkdirAll (p : str) (perm : N)
| CRemove (p : str)
| CRename (from to : str)
| COpenFile (p : str) (flag : Z) (mode : N)
| CSync
| CCloseRead (name : str) (entry : IndexEntry) (isClosed : bool)
| CCloseAgain (f : File).

Definition call (c : Call) : M unit :=
  match c with
  | CStat p => ignore (Stat p)
  | CReadDir p => ignore (ReadDir p)
  | CMkdirAll p perm => MkdirAll p perm
  | CRemove p => Remove p
  | CRename from to => Rename from to
  | COpenFile p flag mode => ignore (OpenFile p flag mode)
  | CSync => Sync
  | CCloseRead name e isClosed => File_Close (ReadFile name e) isClosed
  | CCloseAgain f => File_Close f true
  end.

Fixpoint run (cs : list Call) : M unit :=
  match cs with
  | [] => ret tt
  | c :: cs => let! _ := ignore (call c) in run cs
  end.

(* ------------------------------------------------------------------ *)
(** ** Lemmas on the session *)

(** The archive's contents: the session's index, or the file's when the
    session is closed. *)
Definition archive (w : World) : list IndexEntry :=
  match rw w with Some index => index | None => disk w end.

(** Whether the writer of the open session is closed; [false] when no
    session is open. *)
Definition writer_closed (w : World) : bool :=
  match rw w with Some _ => wclosed w | None => false end.

Ltac unfold_M :=
  unfold bind, ret, throw, get, modify, lift, catch, ignore, defer, with_rw in *.

Lemma ensureOpen_when_open (w : World) (index : list IndexEntry) :
  rw w = Some index -> ensureOpen w = (Ok tt, w).
Proof. intros H. unfold ensureOpen; unfold_M. now rewrite H. Qed.

Lemma ensureOpen_healthy (w : World) :
  rw w = None -> faults w = [] ->
  ensureOpen w = (Ok tt, set_session (disk w) w).
Proof.
  destruct w as [r b d c f k]; simpl. intros -> ->.
  unfold ensureOpen, underlying_OpenFile, siva_NewReaderWriter, io_call; unfold_M.
  reflexivity.
Qed.

(** [ensureOpen] keeps the writer flag and the archive's contents, and on
    success leaves the session open. *)
Lemma ensureOpen_keeps (w : World) (r : result unit) (w' : World) :
  ensureOpen w = (r, w') ->
  fileWriteModeOpen w' = fileWriteModeOpen w /\ archive w' = archive w /\
  (r = Ok tt -> rw w' = Some (archive w)) /\
  (forall e, r = Err e -> exists c, e = IOError c).
Proof.
  destruct w as [[i|] b d c f k]; unfold ensureOpen, archive; unfold_M; simpl.
  - intros H; inversion H; subst. simpl. repeat split; auto; discriminate.
  - unfold underlying_OpenFile, siva_NewReaderWriter, f_Close, io_call; simpl.
    destruct f as [|[x|] f]; simpl.
    + intros H; inversion H; subst; simpl. repeat split; auto; discriminate.
    + intros H; inversion H; subst; simpl.
      repeat split; try discriminate. intros e He; inversion He; eauto.
    + destruct f as [|[y|] f]; simpl; intros H; inversion H; subst; simpl.
      * repeat split; auto; discriminate.
      * destruct f as [|[z|] f]; simpl; repeat split; try discriminate;
          intros e He; inversion He; eauto.
      * repeat split; auto; discriminate.
Qed.

Lemma Sync_when_closed (w : World) : rw w = None -> Sync w = (Ok tt, w).
Proof. intros H. unfold Sync, ensureClosed; unfold_M. now rewrite H. Qed.

Lemma Sync_healthy_closes (w : World) :
  faults w = [] -> writer_closed w = false -> rw (snd (Sync w)) = None.
Proof.
  destruct w as [[i|] b d c f k]; unfold writer_closed; simpl; intros -> Hk;
    [subst k|]; reflexivity.
Qed.

(** [never e m]: [m] does not fail with [e], from any state. *)
Definition never {A} (e : error) (m : M A) : Prop := forall w, fst (m w) <> Err e.

Lemma never_ret {A} e (a : A) : never e (ret a).
Proof. intros w; discriminate. Qed.

Lemma never_throw {A} e e' : e' <> e -> never e (@throw A e').
Proof. intros H w Hw; inversion Hw; auto. Qed.

Lemma never_get e : never e get.
Proof. intros w; discriminate. Qed.

Lemma never_modify e f : never e (modify f).
Proof. intros w; discriminate. Qed.

Lemma never_bind {A B} e (m : M A) (k : A -> M B) :
  never e m -> (forall a, never e (k a)) -> never e (bind m k).
Proof.
  intros Hm Hk w. unfold bind. specialize (Hm w).
  destruct (m w) as [[a|e'] w']; [apply Hk|].
  simpl in *. intros He; inversion He; subst; congruence.
Qed.

Lemma never_io_call e : (forall c, e <> IOError c) -> never e io_call.
Proof.
  intros H w. unfold io_call. destruct (faults w) as [|[c|] f]; simpl; try discriminate.
  intros Hc; inversion Hc; subst; eapply H; eauto.
Qed.

Lemma never_with_rw {A} e (k : list IndexEntry -> M A) :
  e <> NilDereference -> (forall i, never e (k i)) -> never e (with_rw k).
Proof.
  intros Hn Hk. unfold with_rw. apply never_bind; [apply never_get|].
  intros w. destruct (rw w); [apply Hk|now apply never_throw].
Qed.

Lemma never_catch {A} e (m : M A) (h : error -> M A) :
  (forall w e', fst (m w) = Err e' -> e' <> e) -> (forall e', never e (h e')) ->
  never e (catch m h).
Proof.
  intros Hm Hh w. unfold catch. destruct (m w) as [[a|e'] w'] eqn:E; [discriminate|].
  apply Hh.
Qed.

Lemma never_ignore {A} e (m : M A) : never e (ignore m).
Proof. intros w; discriminate. Qed.

Lemma never_check_writer e : e <> ErrClosedWriter -> never e check_writer.
Proof.
  intros H w. unfold check_writer, bind, get. destruct (wclosed w); simpl;
    [intros He; inversion He; auto|discriminate].
Qed.

Lemma never_defer {A} e (m : M A) f : never e m -> never e (defer m f).
Proof. intros H w. specialize (H w). unfold defer. destruct (m w); exact H. Qed.

Create HintDb never.
#[local] Hint Resolve never_ret never_get never_modify never_ignore : never.
#[local] Hint Extern 1 (never _ (throw _)) => apply never_throw; discriminate : never.
#[local] Hint Extern 1 (never _ io_call) => apply never_io_call; discriminate : never.
#[local] Hint Extern 1 (never _ (bind _ _)) => apply never_bind; [|intro] : never.
#[local] Hint Extern 1 (never _ (with_rw _)) => apply never_with_rw; [discriminate|intro] : never.
#[local] Hint Extern 1 (never _ check_writer) => apply never_check_writer; discriminate : never.





Lemma has_O_RDONLY (flag : Z) : has flag O_RDONLY = false.
Proof. unfold has, O_RDONLY. now rewrite Z.land_0_r. Qed.

Lemma create_flags_bits :
  has create_flags O_CREATE = true /\ has create_flags O_TRUNC = true /\
  has create_flags O_WRONLY = true /\ has create_flags O_RDWR = false.
Proof. vm_compute. auto. Qed.

(** [Create] on an open session with no busy writer and a store that
    reports no error appends the header and hands out a write handle. *)
Lemma Create_healthy (w : World) (p : str) (index : list IndexEntry) :
  rw w = Some index -> fileWriteModeOpen w = false -> faults w = [] ->
  wclosed w = false ->
  Create p w =
    (Ok (WriteFile (normalizePath p) create_flags),
     set_busy true (set_rw (Some (index ++ [mkEntry (normalizePath p) 438 (clock w) 0])) w)).
Proof.
  destruct w as [r b d c f k]; simpl; intros -> -> -> ->.
  unfold Create, OpenFile, createFile. simpl. reflexivity.
Qed.

(* ------------------------------------------------------------------ *)
(** ** The writer discipline *)



(** C1 (as amended): while the writer-busy flag is set, an [OpenFile]
    with [O_CREATE] but no [O_TRUNC] is refused with [ErrNotSupported];
    one with [O_CREATE] and [O_TRUNC] runs [ensureOpen] and then is
    refused with [ErrFileWriteModeAlreadyOpen], or with the error of
    [ensureOpen] if reopening fails, in both cases without writing a
    header and leaving the flag set.  The first close of a write-only
    handle while the session is open clears the flag, whether or not the
    flush succeeds; a second close of the handle fails and changes
    nothing.  After the first close, [Create] succeeds when the store
    reports no error and the session's writer is not closed. *)
Theorem writer_busy_discipline :
  (forall (w : World) (p : str) (flag : Z) (mode : N),
     fileWriteModeOpen w = true -> has flag O_CREATE = true ->
     (has flag O_TRUNC = false -> OpenFile p flag mode w = (Err ErrNotSupported, w)) /\
     (has flag O_TRUNC = true ->
        OpenFile p flag mode w =
          (match fst (ensureOpen w) with
           | Ok _ => Err ErrFileWriteModeAlreadyOpen
           | Err e => Err e
           end, snd (ensureOpen w)) /\
        archive (snd (OpenFile p flag mode w)) = archive w /\
        fileWriteModeOpen (snd (OpenFile p flag mode w)) = true)) /\
  (forall (w : World) (name : str) (flag : Z),
     rw w <> None -> has flag O_WRONLY = true ->
     let w' := snd (File_Close (WriteFile name flag) false w) in
     fileWriteModeOpen w' = false /\
     File_Close (WriteFile name flag) true w' = (Err ErrAlreadyClosed, w') /\
     (faults w = [] -> writer_closed w = false ->
        forall p, exists h w'', Create p w' = (Ok h, w''))).
Proof.
  split.
  - intros w p flag mode Hb Hc. split.
    + intros Ht. unfold OpenFile. cbv zeta. rewrite Hc, Ht. reflexivity.
    + intros Ht.
      assert (Ho : OpenFile p flag mode w =
          (match fst (ensureOpen w) with
           | Ok _ => Err ErrFileWriteModeAlreadyOpen
           | Err e => Err e
           end, snd (ensureOpen w))).
      { unfold OpenFile. cbv zeta. rewrite Hc, Ht. simpl.
        unfold bind at 1. destruct (ensureOpen w) as [r w'] eqn:E.
        apply ensureOpen_keeps in E as (Hb' & _ & _ & _).
        destruct r as [[]|e]; simpl; [|reflexivity].
        unfold bind, get. rewrite Hb', Hb. reflexivity. }
      split; [exact Ho|]. rewrite Ho. simpl.
      destruct (ensureOpen w) as [r w'] eqn:E.
      apply ensureOpen_keeps in E as (Hb' & Ha & _ & _). simpl.
      split; [exact Ha|congruence].
  - intros w name flag Hopen Hw. cbv zeta.
    assert (Hb : fileWriteModeOpen (snd (File_Close (WriteFile name flag) false w)) = false).
    { destruct w as [[i|] b d c f k]; simpl in *; [|congruence].
      unfold File_Close, closeFunc, rw_Flush, check_writer, io_call; unfold_M.
      simpl. rewrite Hw. simpl.
      destruct k; [reflexivity|]. destruct f as [|[x|] f]; reflexivity. }
    split; [exact Hb|]. split; [reflexivity|].
    intros Hf Hk p. unfold writer_closed in Hk.
    destruct w as [[i|] b d c f k]; simpl in *; [|congruence]. subst f k.
    unfold File_Close, closeFunc, rw_Flush, check_writer, io_call; unfold_M.
    simpl. rewrite Hw. simpl.
    eexists; eexists. rewrite (Create_healthy _ _ i); reflexivity.
Qed.

Lemma writer_busy_discipline_witness :
  OpenFile (lit "b") create_flags 438 (mkWorld (Some []) true [] 0 [] false)
    = (Err ErrFileWriteModeAlreadyOpen, mkWorld (Some []) true [] 0 [] false) /\
  OpenFile (lit "b") create_flags 438 (mkWorld None true [] 0 [Some 4%nat] false)
    = (Err (IOError 4), mkWorld None true [] 0 [] false) /\
  fileWriteModeOpen (snd (File_Close (WriteFile (lit "a") create_flags) false
                            (mkWorld (Some []) true [] 0 [Some 2%nat] false))) = false /\
  (exists h w'', Create (lit "b") (snd (File_Close (WriteFile (lit "a") create_flags) false
                            (mkWorld (Some []) true [] 0 [] false))) = (Ok h, w'')).
Proof.
  destruct writer_busy_discipline as [H1 H2].
  destruct create_flags_bits as (Hc & Ht & Hw & _).
  split; [|split; [|split]].
  - destruct (H1 (mkWorld (Some []) true [] 0 [] false) (lit "b") create_flags 438%N eq_refl Hc)
      as [_ H1b].
    exact (proj1 (H1b Ht)).
  - destruct (H1 (mkWorld None true [] 0 [Some 4%nat] false) (lit "b") create_flags 438%N
                 eq_refl Hc) as [_ H1b].
    exact (proj1 (H1b Ht)).
  - pose proof (H2 (mkWorld (Some []) true [] 0 [Some 2%nat] false) (lit "a") create_flags)
      as H2w.
    cbv zeta in H2w.
    destruct H2w as [H2w _]; [discriminate|exact Hw|exact H2w].
  - pose proof (H2 (mkWorld (Some []) true [] 0 [] false) (lit "a") create_flags) as H2w.
    cbv zeta in H2w.
    destruct H2w as (_ & _ & H2w); [discriminate|exact Hw|].
    exact (H2w eq_refl eq_refl (lit "b")).
Defined.

(** C1 as stated fails: with the flag set, [O_CREATE] without [O_TRUNC]
    is refused with [ErrNotSupported], not [ErrFileWriteModeAlreadyOpen]. *)
Lemma busy_create_without_trunc_not_supported :
  fst (OpenFile (lit "b") O_CREATE 438 (mkWorld (Some []) true [] 0 [] false))
    = Err ErrNotSupported /\
  fst (OpenFile (lit "b") O_CREATE 438 (mkWorld (Some []) true [] 0 [] false))
    <> Err ErrFileWriteModeAlreadyOpen.
Proof. vm_compute. split; [reflexivity|discriminate]. Qed.

(* ------------------------------------------------------------------ *)
(** ** Opening and closing the session *)

(** A session whose writer is closed refuses to close again: [Sync]
    fails with [ErrClosedWriter] and changes nothing. *)
Lemma Sync_closed_writer (w : World) :
  rw w <> None -> wclosed w = true -> Sync w = (Err ErrClosedWriter, w).
Proof.
  destruct w as [[i|] b d c f k]; simpl; [intros _ ->|congruence].
  reflexivity.
Qed.

(** After a [Sync] the session is closed, or it is still open and its
    writer is closed. *)
Lemma Sync_leaves_closed (w : World) :
  rw (snd (Sync w)) = None \/ wclosed (snd (Sync w)) = true.
Proof.
  destruct w as [[i|] b d c f k]; [|left; reflexivity].
  unfold Sync, ensureClosed, rw_Close, check_writer, f_Close, io_call; unfold_M.
  simpl. destruct k; [right; reflexivity|].
  destruct f as [|[x|] f]; simpl; auto.
  destruct f as [|[y|] f]; simpl; auto.
Qed.

(** C9: [ensureOpen] on an open session and [Sync] on a closed one change
    nothing and succeed, and [Sync] followed by [Sync] leaves the state of
    a single [Sync]: the second one finds the session closed, or finds
    its writer closed by the first and fails with [ErrClosedWriter].  A
    [Sync] on a store that reports no error, with the writer not closed,
    does close the session. *)
Theorem session_open_close_idempotent (w : World) :
  (forall index, rw w = Some index -> ensureOpen w = (Ok tt, w)) /\
  (rw w = None -> Sync w = (Ok tt, w)) /\
  snd (Sync (snd (Sync w))) = snd (Sync w) /\
  (rw (snd (Sync w)) <> None -> fst (Sync (snd (Sync w))) = Err ErrClosedWriter) /\
  (faults w = [] -> writer_closed w = false -> rw (snd (Sync w)) = None).
Proof.
  split; [intros index; apply ensureOpen_when_open|].
  split; [apply Sync_when_closed|].
  split; [|split; [|apply Sync_healthy_closes]].
  - destruct (rw (snd (Sync w))) eqn:E.
    + assert (Hn : rw (snd (Sync w)) <> None) by congruence.
      destruct (Sync_leaves_closed w) as [H|H]; [congruence|].
      now rewrite (Sync_closed_writer _ Hn H).
    + now rewrite (Sync_when_closed _ E).
  - intros Hn. destruct (Sync_leaves_closed w) as [H|H]; [congruence|].
    now rewrite (Sync_closed_writer _ Hn H).
Qed.

Lemma session_open_close_idempotent_witness :
  ensureOpen (mkWorld (Some []) false [] 0 [Some 1%nat] false) =
    (Ok tt, mkWorld (Some []) false [] 0 [Some 1%nat] false) /\
  fst (Sync (snd (Sync (mkWorld (Some []) false [] 0 [Some 1%nat] false))))
    = Err ErrClosedWriter /\
  rw (snd (Sync (mkWorld (Some []) false [] 0 [] false))) = None.
Proof.
  destruct (session_open_close_idempotent (mkWorld (Some []) false [] 0 [Some 1%nat] false))
    as (H1 & _ & _ & H4 & _).
  destruct (session_open_close_idempotent (mkWorld (Some []) false [] 0 [] false))
    as (_ & _ & _ & _ & H5).
  split; [exact (H1 [] eq_refl)|split].
  - apply H4. vm_compute. discriminate.
  - exact (H5 eq_refl eq_refl).
Defined.

(* ------------------------------------------------------------------ *)
(** ** Example archives *)

Definition file_entry (name : string) (t : N) : IndexEntry := mkEntry (lit name) 438 t 0.

(** An open session over an archive holding the given entries, written at
    time 5; the clock reads 9 and the store reports no error. *)
Definition session_with (names : list string) : World :=
  mkWorld (Some (map (fun n => file_entry n 5) names)) false [] 9 [] false.

(* ------------------------------------------------------------------ *)
(** ** Name conflicts at creation *)

(** C2 (as amended): [createFile] checks no name conflict.  With no busy
    writer, a store that reports no error and a session whose writer is
    not closed (a closed session reopens with a fresh writer), [Create p]
    succeeds and appends a header for the normalized [p], whatever entries
    lie below [p] or at one of its directory prefixes. *)
Theorem Create_no_conflict_check (w : World) (p : str) :
  fileWriteModeOpen w = false -> faults w = [] -> writer_closed w = false ->
  exists w', Create p w = (Ok (WriteFile (normalizePath p) create_flags), w') /\
    archive w' = archive w ++ [mkEntry (normalizePath p) 438 (clock w) 0] /\
    fileWriteModeOpen w' = true.
Proof.
  intros Hb Hf Hk.
  destruct (rw w) as [index|] eqn:Hrw.
  - unfold writer_closed in Hk. rewrite Hrw in Hk.
    eexists. rewrite (Create_healthy w p index Hrw Hb Hf Hk).
    split; [reflexivity|]. unfold archive; simpl. rewrite Hrw. auto.
  - destruct w as [r b d c f k]; simpl in *; subst.
    eexists. unfold Create, OpenFile, createFile. simpl.
    split; [reflexivity|]. unfold archive; simpl. auto.
Qed.

Lemma Create_no_conflict_check_witness :
  exists w', Create (lit "a") (session_with ["a/b"]) =
    (Ok (WriteFile (normalizePath (lit "a")) create_flags), w').
Proof.
  destruct (Create_no_conflict_check (session_with ["a/b"]) (lit "a") eq_refl eq_refl eq_refl)
    as [w' [H _]].
  exists w'. exact H.
Defined.

(** C2 as stated fails: [Create "a"] succeeds over the entry ["a/b"],
    after which ["a"] is both a file and a synthetic directory, and
    [Create "a/b"] succeeds over the file ["a"]. *)
Lemma Create_over_directory_and_below_file :
  fst (Create (lit "a") (session_with ["a/b"])) = Ok (WriteFile (lit "a") create_flags) /\
  fst (Stat (lit "a") (snd (Create (lit "a") (session_with ["a/b"])))) =
    Ok (EntryInfo (mkEntry (lit "a") 438 9 0)) /\
  getDir (archive (snd (Create (lit "a") (session_with ["a/b"])))) (lit "a") =
    inr (Some (DirInfo (lit "a") 5)) /\
  fst (Create (lit "a/b") (session_with ["a"])) = Ok (WriteFile (lit "a/b") create_flags).
Proof. vm_compute. repeat split; reflexivity. Qed.

(* ------------------------------------------------------------------ *)
(** ** Flag checks of [OpenFile] *)

Lemma has_lor_append (flag bit : Z) :
  Z.land O_APPEND bit = 0%Z -> has (Z.lor flag O_APPEND) bit = has flag bit.
Proof.
  intros H. unfold has. rewrite Z.land_lor_distr_l, H, Z.lor_0_r. reflexivity.
Qed.

(** Only the handle built by [createFile] carries the flag it was given. *)
Definition with_handle_flag (flag : Z) (r : result File * World) : result File * World :=
  match r with
  | (Ok (WriteFile n _), w') => (Ok (WriteFile n flag), w')
  | r => r
  end.

Lemma createFile_flag (p : str) (f1 f2 : Z) (mode : N) (w : World) :
  has f1 O_RDWR = has f2 O_RDWR ->
  createFile p f1 mode w = with_handle_flag f1 (createFile p f2 mode w).
Proof.
  intros H. unfold createFile. rewrite H, !has_O_RDONLY.
  destruct (has f2 O_RDWR); [reflexivity|]. simpl.
  unfold bind at 1 3, time_Now. unfold bind.
  destruct (rw_WriteHeader _ _) as [[[]|e] w']; reflexivity.
Qed.

(** C6 (as amended): [O_CREATE] without [O_TRUNC] is refused with
    [ErrNotSupported] before anything else; once the session is open,
    [O_RDWR] is refused with [ErrNotSupported] (for a create: when no
    writer is busy), as is [O_WRONLY] without [O_CREATE]; [O_APPEND] is
    never inspected: adding it changes nothing but the flag a write handle
    carries. *)
Theorem OpenFile_flag_checks (w : World) (p : str) (flag : Z) (mode : N) :
  (has flag O_CREATE = true -> has flag O_TRUNC = false ->
     OpenFile p flag mode w = (Err ErrNotSupported, w)) /\
  (forall w', ensureOpen w = (Ok tt, w') ->
     (has flag O_CREATE = false -> has flag O_RDWR = true \/ has flag O_WRONLY = true ->
        OpenFile p flag mode w = (Err ErrNotSupported, w')) /\
     (has flag O_CREATE = true -> has flag O_TRUNC = true -> has flag O_RDWR = true ->
        fileWriteModeOpen w = false ->
        OpenFile p flag mode w = (Err ErrNotSupported, w'))) /\
  OpenFile p (Z.lor flag O_APPEND) mode w =
    with_handle_flag (Z.lor flag O_APPEND) (OpenFile p flag mode w).
Proof.
  split; [intros Hc Ht; unfold OpenFile; cbv zeta; now rewrite Hc, Ht|].
  split.
  - intros w' Hw'. pose proof Hw' as Hk. apply ensureOpen_keeps in Hk as (Hb & _).
    split.
    + intros Hc Hrw. unfold OpenFile; cbv zeta. rewrite Hc. simpl.
      unfold bind at 1. rewrite Hw'. unfold openFile.
      destruct Hrw as [H|H]; rewrite H; [reflexivity|].
      now rewrite orb_true_r.
    + intros Hc Ht Hrw Hbusy. unfold OpenFile; cbv zeta. rewrite Hc, Ht. simpl.
      unfold bind at 1. rewrite Hw'. unfold_M. rewrite Hb, Hbusy.
      unfold createFile. now rewrite Hrw.
  - assert (HA : forall bit, bit = O_CREATE \/ bit = O_TRUNC \/ bit = O_RDWR \/ bit = O_WRONLY ->
                 has (Z.lor flag O_APPEND) bit = has flag bit).
    { intros bit Hbit. apply has_lor_append.
      destruct Hbit as [ -> | [ -> | [ -> | -> ] ] ]; reflexivity. }
    unfold OpenFile; cbv zeta.
    rewrite !HA by auto.
    destruct (has flag O_CREATE && negb (has flag O_TRUNC)); [reflexivity|].
    unfold bind at 1 3. destruct (ensureOpen w) as [[[]|e] w'] eqn:E; [|reflexivity].
    destruct (has flag O_CREATE).
    + unfold_M. destruct (fileWriteModeOpen w'); [reflexivity|].
      apply createFile_flag. apply HA. auto.
    + unfold openFile. rewrite !HA by auto.
      destruct (has flag O_RDWR || has flag O_WRONLY); [reflexivity|].
      unfold bind. destruct (getIndex w') as [[idx|e] w''] ; [|reflexivity].
      destruct (Find idx (normalizePath p)); [|reflexivity].
      destruct (rw_Get _ w'') as [[[]|e] w3]; reflexivity.
Qed.

Lemma OpenFile_flag_checks_witness :
  OpenFile (lit "a") O_CREATE 0 (session_with ["a"]) =
    (Err ErrNotSupported, session_with ["a"]).
Proof.
  destruct (OpenFile_flag_checks (session_with ["a"]) (lit "a") O_CREATE 0) as [H _].
  apply H; reflexivity.
Defined.

(** C6 as stated fails: [O_APPEND] is not refused; a read-only open with
    [O_APPEND] of an existing entry returns a read handle. *)
Lemma OpenFile_append_accepted :
  fst (OpenFile (lit "a") (Z.lor O_RDONLY O_APPEND) 0 (session_with ["a"])) =
    Ok (ReadFile (lit "a") (file_entry "a" 5)).
Proof. vm_compute. reflexivity. Qed.

(* ------------------------------------------------------------------ *)
(** ** Paths passed to [Glob] unescaped, and [MkdirAll]'s raw path *)

(** C5: [Stat "["] on an archive holding ["a"]: no entry is named ["["]
    and none lies below it, yet [Stat] fails with [ErrBadPattern] instead
    of [ErrNotExist], because [getDir] hands the path to [Index.Glob] as a
    pattern (["[/*"]), which [filepath.Match] rejects. *)
Theorem Stat_glob_metachar_bad_pattern :
  Find (Filter (archive (session_with ["a"]))) (normalizePath (lit "[")) = None /\
  getDir (Filter (archive (session_with ["a"]))) (normalizePath (lit "[")) = inl ErrBadPattern /\
  fst (Stat (lit "[") (session_with ["a"])) = Err ErrBadPattern.
Proof. vm_compute. repeat split; reflexivity. Qed.

(** C8: [MkdirAll] looks its argument up without normalizing it, while
    [Stat], [OpenFile], [ReadDir] and [Remove] normalize theirs: over the
    file ["a"], [MkdirAll "a"] fails with [ENOTDIR] but [MkdirAll "/a"]
    succeeds, though ["/a"] normalizes to ["a"] and [Stat "/a"] finds the
    file. *)
Theorem MkdirAll_leading_slash_misses_file :
  normalizePath (lit "/a") = lit "a" /\
  fst (Stat (lit "/a") (session_with ["a"])) = Ok (EntryInfo (file_entry "a" 5)) /\
  fst (MkdirAll (lit "a") 0 (session_with ["a"])) = Err (ENOTDIR_err (lit "mkdir") (lit "a")) /\
  fst (MkdirAll (lit "/a") 0 (session_with ["a"])) = Ok tt.
Proof. vm_compute. repeat split; reflexivity. Qed.

(* ------------------------------------------------------------------ *)
(** ** Directories are one glob level deep *)

(** C3 as stated fails: with only ["a/b/c"] in the archive, ["a"] has an
    entry nested beneath it, but [Stat "a"] is [ErrNotExist]: the pattern
    ["a/*"] does not match across a ['/']. *)
Lemma Stat_deeply_nested_not_found :
  fst (Stat (lit "a") (session_with ["a/b/c"])) = Err ErrNotExist.
Proof. vm_compute. reflexivity. Qed.

(** C4 as stated fails: with only ["a/b/c"], [Remove "a"] answers
    [ErrNotExist], not [ENOTEMPTY]. *)
Lemma Remove_deeply_nested_not_found :
  fst (Remove (lit "a") (session_with ["a/b/c"])) = Err ErrNotExist.
Proof. vm_compute. reflexivity. Qed.

(** C7 as stated fails: with ["a/b/c/d"] and ["a/x/y"], [ReadDir "a"]
    lists ["a/x"] but not ["a/b"]. *)
Lemma ReadDir_deeply_nested_missing :
  fst (ReadDir (lit "a") (session_with ["a/b/c/d"; "a/x/y"])) =
    Ok [DirInfo (lit "a/x") 5].
Proof. vm_compute. reflexivity. Qed.

(* ------------------------------------------------------------------ *)
(** ** Normalized paths *)

(** A segment of a normalized path: non-empty, no ['/'], not ["."] or
    [".."]. *)
Definition good_seg (s : str) : Prop :=
  s <> [] /\ contains_slash s = false /\ s <> lit "." /\ s <> lit "..".

Lemma ascii_eqb_eq (a b : ascii) : ascii_eqb a b = true <-> a = b.
Proof. unfold ascii_eqb. destruct (ascii_dec a b); split; congruence. Qed.

Lemma ascii_eqb_refl (a : ascii) : ascii_eqb a a = true.
Proof. now apply ascii_eqb_eq. Qed.

Lemma str_eqb_eq (a b : str) : str_eqb a b = true <-> a = b.
Proof. unfold str_eqb. destruct (List.list_eq_dec ascii_dec a b); split; congruence. Qed.

Lemma contains_slash_cons (c : ascii) (s : str) :
  contains_slash (c :: s) = ascii_eqb slash c || contains_slash s.
Proof. reflexivity. Qed.

Lemma contains_slash_app (a b : str) :
  contains_slash (a ++ b) = contains_slash a || contains_slash b.
Proof. unfold contains_slash. apply existsb_app. Qed.

Lemma split_slash_free (s : str) : contains_slash s = false -> split_slash s = [s].
Proof.
  induction s as [|c s IH]; [reflexivity|].
  rewrite contains_slash_cons. intros H. apply orb_false_iff in H as [H1 H2].
  simpl. rewrite IH by exact H2.
  unfold ascii_eqb in *. destruct (ascii_dec c slash), (ascii_dec slash c); simpl in *; try reflexivity; try discriminate; subst; congruence.
Qed.

Lemma split_slash_not_nil (s : str) : split_slash s <> [].
Proof.
  destruct s as [|c s]; simpl; [discriminate|].
  destruct (ascii_eqb c slash); [discriminate|]. destruct (split_slash s); discriminate.
Qed.

Lemma split_slash_app (a b : str) :
  split_slash (a ++ slash :: b) = split_slash a ++ split_slash b.
Proof.
  induction a as [|c a IH]; simpl.
  - reflexivity.
  - rewrite IH. destruct (ascii_eqb c slash); [reflexivity|].
    destruct (split_slash a) eqn:E; [now apply split_slash_not_nil in E|]. reflexivity.
Qed.

Lemma split_slash_segments (s : str) : Forall (fun x => contains_slash x = false) (split_slash s).
Proof.
  induction s as [|c s IH]; simpl; [repeat constructor|].
  destruct (ascii_eqb c slash) eqn:Ec; [constructor; [reflexivity|exact IH]|].
  destruct (split_slash s) as [|seg rest] eqn:E; [now apply split_slash_not_nil in E|].
  inversion IH; subst. constructor; [|assumption].
  rewrite contains_slash_cons. unfold ascii_eqb in *.
  destruct (ascii_dec c slash), (ascii_dec slash c); simpl in *; try discriminate; subst; congruence.
Qed.

Lemma split_join (segs : list str) :
  segs <> [] -> Forall (fun x => contains_slash x = false) segs ->
  split_slash (join_slash segs) = segs.
Proof.
  induction segs as [|x segs IH]; [congruence|]. intros _ Hall.
  inversion Hall; subst.
  destruct segs as [|y segs].
  - simpl. now apply split_slash_free.
  - change (join_slash (x :: y :: segs)) with (x ++ slash :: join_slash (y :: segs)).
    rewrite split_slash_app, split_slash_free by assumption.
    rewrite IH by (discriminate || assumption). reflexivity.
Qed.

Lemma join_slash_snoc (segs : list str) (x : str) :
  segs <> [] -> join_slash (segs ++ [x]) = join_slash segs ++ slash :: x.
Proof.
  induction segs as [|y segs IH]; [congruence|]. intros _.
  destruct segs as [|z segs]; [reflexivity|].
  change (join_slash (y :: z :: (segs ++ [x])) = join_slash (y :: z :: segs) ++ slash :: x).
  change (join_slash (y :: z :: (segs ++ [x]))) with (y ++ slash :: join_slash ((z :: segs) ++ [x])).
  change (join_slash (y :: z :: segs)) with (y ++ slash :: join_slash (z :: segs)).
  rewrite IH by discriminate. rewrite <- app_assoc. reflexivity.
Qed.

Lemma clean_step_good (rooted : bool) (st : list str) (seg : str) :
  good_seg seg -> clean_step rooted st seg = seg :: st.
Proof.
  intros (H1 & _ & H3 & H4). unfold clean_step.
  destruct (str_eqb seg []) eqn:E1; [apply str_eqb_eq in E1; congruence|].
  destruct (str_eqb seg (lit ".")) eqn:E2; [apply str_eqb_eq in E2; congruence|].
  destruct (str_eqb seg (lit "..")) eqn:E3; [apply str_eqb_eq in E3; congruence|].
  reflexivity.
Qed.

Lemma clean_fold_good (rooted : bool) (l st : list str) :
  Forall good_seg l -> fold_left (clean_step rooted) l st = rev l ++ st.
Proof.
  revert st. induction l as [|x l IH]; intros st Hl; [reflexivity|].
  inversion Hl; subst. simpl. rewrite clean_step_good by assumption.
  rewrite IH by assumption. rewrite <- app_assoc. reflexivity.
Qed.

(** Cleaning a rooted path keeps only good segments on the stack. *)
Lemma clean_fold_rooted (l st : list str) :
  Forall (fun x => contains_slash x = false) l -> Forall good_seg st ->
  Forall good_seg (fold_left (clean_step true) l st).
Proof.
  revert st. induction l as [|x l IH]; intros st Hl Hst; [exact Hst|].
  inversion Hl; subst. simpl. apply IH; [assumption|].
  unfold clean_step.
  destruct (str_eqb x [] || str_eqb x (lit ".")) eqn:E1; [exact Hst|].
  apply orb_false_iff in E1 as [E1 E2].
  destruct (str_eqb x (lit "..")) eqn:E3.
  - destruct st as [|top rest]; [constructor|].
    inversion Hst; subst.
    destruct (str_eqb top (lit "..")) eqn:E4; [|assumption].
    apply str_eqb_eq in E4. destruct H3 as (_ & _ & _ & H). congruence.
  - constructor; [|exact Hst]. repeat split; try assumption.
    + intros ->. discriminate.
    + intros ->. discriminate.
    + intros ->. discriminate.
Qed.

(** Every normalized path is its good segments joined by ['/']. *)
Lemma normalizePath_segments (p : str) :
  exists segs, Forall good_seg segs /\ normalizePath p = join_slash segs.
Proof.
  exists (rev (fold_left (clean_step true) (split_slash (slash :: slash :: p)) [])).
  split.
  - apply Forall_rev, clean_fold_rooted; [apply split_slash_segments|constructor].
  - reflexivity.
Qed.

Lemma join_good_nil (segs : list str) :
  Forall good_seg segs -> join_slash segs = [] -> segs = [].
Proof.
  intros Hs. destruct segs as [|x segs]; [reflexivity|]. inversion Hs; subst.
  destruct H1 as (Hx & _). destruct x; [congruence|].
  destruct segs; discriminate.
Qed.

(** A non-empty normalized path starts and ends with a character other
    than ['/']. *)
Lemma join_good_shape (segs : list str) :
  Forall good_seg segs -> segs <> [] ->
  (exists c rest, join_slash segs = c :: rest /\ c <> slash) /\
  (exists pre c, join_slash segs = pre ++ [c] /\ c <> slash).
Proof.
  intros Hs Hne. split.
  - destruct segs as [|x segs]; [congruence|]. inversion Hs; subst.
    destruct H1 as (Hx & Hsl & _). destruct x as [|c x]; [congruence|].
    rewrite contains_slash_cons in Hsl. apply orb_false_iff in Hsl as [Hc _].
    assert (c <> slash) by (intros ->; rewrite ascii_eqb_refl in Hc; discriminate).
    destruct segs; eexists _, _; split; [reflexivity|assumption|reflexivity|assumption].
  - destruct (@exists_last _ segs Hne) as (segs' & x & ->).
    apply Forall_app in Hs as [_ Hx]. inversion Hx; subst.
    destruct H1 as (Hxne & Hsl & _).
    destruct (@exists_last _ x Hxne) as (x' & c & ->).
    rewrite contains_slash_app in Hsl. apply orb_false_iff in Hsl as [_ Hc].
    simpl in Hc. rewrite orb_false_r in Hc.
    assert (c <> slash) by (intros ->; rewrite ascii_eqb_refl in Hc; discriminate).
    destruct segs' as [|y segs'].
    + exists x', c. split; [reflexivity|assumption].
    + rewrite join_slash_snoc by discriminate.
      exists (join_slash (y :: segs') ++ slash :: x'), c.
      split; [rewrite <- app_assoc; reflexivity|assumption].
Qed.

Lemma Clean_relative (c : ascii) (r : str) :
  ascii_eqb c slash = false ->
  Clean (c :: r) =
  (let body := join_slash (rev (fold_left (clean_step false) (split_slash (c :: r)) [])) in
   if is_empty body then lit "." else body).
Proof. intros H. unfold Clean. cbv beta iota zeta. rewrite H. reflexivity. Qed.

Lemma addTrailingSlash_normal (segs : list str) :
  Forall good_seg segs ->
  addTrailingSlash (join_slash segs) =
  match segs with [] => [] | _ => join_slash segs ++ [slash] end.
Proof.
  intros Hs. destruct segs as [|x segs']; [reflexivity|].
  destruct (join_good_shape (x :: segs') Hs ltac:(discriminate))
    as [(c & rest & Hj & _) (pre & c' & Hj' & Hc')].
  unfold addTrailingSlash, has_slash_suffix. rewrite Hj at 1. simpl is_empty. cbv iota.
  rewrite Hj', rev_app_distr. simpl.
  destruct (ascii_eqb c' slash) eqn:E; [apply ascii_eqb_eq in E; congruence|].
  reflexivity.
Qed.

(** The pattern [getDir] builds for a non-empty normalized directory:
    [filepath.Join(d + "/", "*")] is [d + "/*"]. *)
Lemma Join2_dir_star (segs : list str) :
  Forall good_seg segs -> segs <> [] ->
  Join2 (join_slash segs ++ [slash]) [star] = join_slash segs ++ [slash; star].
Proof.
  intros Hs Hne.
  destruct (join_good_shape segs Hs Hne) as [(c & rest & Hj & Hc) _].
  assert (Hsf : Forall (fun x => contains_slash x = false) segs).
  { eapply Forall_impl; [exact Hs|]. intros x (_ & H & _). exact H. }
  unfold Join2.
  replace (is_empty (join_slash segs ++ [slash])) with false
    by (destruct (join_slash segs); reflexivity).
  replace ((join_slash segs ++ [slash]) ++ slash :: [star])
    with (join_slash segs ++ slash :: slash :: [star]) by (rewrite <- app_assoc; reflexivity).
  assert (Hsplit : split_slash (join_slash segs ++ slash :: slash :: [star]) = segs ++ [[]; [star]]).
  { rewrite split_slash_app, split_join by assumption. reflexivity. }
  assert (Hc' : ascii_eqb c slash = false).
  { destruct (ascii_eqb c slash) eqn:E; [apply ascii_eqb_eq in E; congruence|reflexivity]. }
  rewrite Hj. change ((c :: rest) ++ slash :: slash :: [star]) with (c :: (rest ++ slash :: slash :: [star])).
  rewrite (Clean_relative c _ Hc').
  change (c :: (rest ++ slash :: slash :: [star])) with ((c :: rest) ++ slash :: slash :: [star]).
  rewrite <- Hj, Hsplit, fold_left_app, (clean_fold_good false segs), app_nil_r by exact Hs.
  cbv zeta. simpl fold_left.
  change (clean_step false (rev segs) []) with (rev segs).
  rewrite clean_step_good by (repeat split; discriminate).
  change (rev ([star] :: rev segs)) with (rev (rev segs) ++ [[star]]).
  rewrite rev_involutive.
  rewrite join_slash_snoc by exact Hne. rewrite Hj. reflexivity.
Qed.

(* ------------------------------------------------------------------ *)
(** ** Matching literal directory prefixes *)

(** A path with none of [filepath.Match]'s special characters
    ([*], [?], [[], [\]): it matches itself literally. *)
Definition glob_meta (c : ascii) : bool :=
  ascii_eqb c star || ascii_eqb c qmark || ascii_eqb c lbrack || ascii_eqb c bslash.

Definition glob_safe (s : str) : bool := forallb (fun c => negb (glob_meta c)) s.

Fixpoint strip_prefix (pre s : str) : option str :=
  match pre, s with
  | [], _ => Some s
  | c :: pre', x :: s' => if ascii_eqb c x then strip_prefix pre' s' else None
  | _ :: _, [] => None
  end.

(** The part after the first ['/'], if any. *)
Fixpoint after_slash (s : str) : option str :=
  match s with
  | [] => None
  | c :: s' => if ascii_eqb c slash then Some s' else after_slash s'
  end.

(** Exactly one ['/']. *)
Definition one_slash (s : str) : bool :=
  match after_slash s with Some r => negb (contains_slash r) | None => false end.

Lemma strip_prefix_spec (pre s x : str) : strip_prefix pre s = Some x <-> s = pre ++ x.
Proof.
  revert s. induction pre as [|c pre IH]; intros s; simpl.
  - split; congruence.
  - destruct s as [|y s]; [split; discriminate|].
    destruct (ascii_eqb c y) eqn:E.
    + apply ascii_eqb_eq in E. subst. rewrite IH. split; [intros ->|intros H; inversion H]; reflexivity.
    + split; [discriminate|]. intros H. inversion H; subst. rewrite ascii_eqb_refl in E. discriminate.
Qed.

Lemma one_slash_spec (s : str) :
  one_slash s = true <->
  exists a b, s = a ++ slash :: b /\ contains_slash a = false /\ contains_slash b = false.
Proof.
  unfold one_slash. induction s as [|c s IH]; simpl.
  - split; [discriminate|]. intros (a & b & H & _). destruct a; discriminate.
  - destruct (ascii_eqb c slash) eqn:E.
    + apply ascii_eqb_eq in E. subst. split.
      * intros H. exists [], s. split; [reflexivity|]. split; [reflexivity|].
        destruct (contains_slash s); [discriminate|reflexivity].
      * intros (a & b & H & Ha & Hb). destruct a as [|x a]; simpl in H; inversion H; subst.
        -- rewrite Hb. reflexivity.
        -- rewrite contains_slash_cons, ascii_eqb_refl in Ha. discriminate.
    + rewrite IH. split.
      * intros (a & b & -> & Ha & Hb). exists (c :: a), b. split; [reflexivity|].
        split; [|exact Hb]. rewrite contains_slash_cons, Ha, orb_false_r.
        destruct (ascii_eqb slash c) eqn:E'; [|reflexivity].
        apply ascii_eqb_eq in E'. subst. rewrite ascii_eqb_refl in E. discriminate.
      * intros (a & b & H & Ha & Hb). destruct a as [|x a]; simpl in H; inversion H; subst.
        -- rewrite ascii_eqb_refl in E. discriminate.
        -- exists a, b. split; [reflexivity|]. split; [|exact Hb].
           rewrite contains_slash_cons in Ha. apply orb_false_iff in Ha as [_ Ha]. exact Ha.
Qed.

Lemma glob_safe_cons (c : ascii) (s : str) :
  glob_safe (c :: s) = true <->
  ascii_eqb c star = false /\ ascii_eqb c qmark = false /\
  ascii_eqb c lbrack = false /\ ascii_eqb c bslash = false /\ glob_safe s = true.
Proof.
  unfold glob_safe, glob_meta. simpl.
  destruct (ascii_eqb c star), (ascii_eqb c qmark), (ascii_eqb c lbrack), (ascii_eqb c bslash);
    simpl; intuition discriminate.
Qed.

Lemma glob_safe_app (a b : str) : glob_safe (a ++ b) = glob_safe a && glob_safe b.
Proof. unfold glob_safe. apply forallb_app. Qed.

Lemma scan_safe (L r : str) :
  glob_safe L = true -> scan false (L ++ star :: r) = (L, star :: r).
Proof.
  induction L as [|c L IH]; intros H; [reflexivity|].
  apply glob_safe_cons in H as (H1 & _ & H3 & H4 & H5).
  cbn [scan app]. rewrite H4, H3, H1.
  destruct (ascii_eqb c rbrack); simpl; rewrite IH by exact H5; reflexivity.
Qed.

Lemma scanChunk_safe (L r : str) :
  glob_safe L = true -> L <> [] -> scanChunk (L ++ star :: r) = (false, L, star :: r).
Proof.
  intros H Hne. destruct L as [|c L']; [congruence|].
  pose proof H as H'. apply glob_safe_cons in H' as (H1 & _).
  unfold scanChunk. cbn [strip_stars app]. rewrite H1.
  change (c :: L' ++ star :: r) with ((c :: L') ++ star :: r).
  rewrite scan_safe by exact H. reflexivity.
Qed.

Lemma matchChunk_loop_safe (fuel : nat) (L s : str) (failed : bool) :
  glob_safe L = true -> length L < fuel ->
  matchChunk_loop fuel L s failed =
  if failed then ChunkFail
  else match strip_prefix L s with Some t => ChunkOk t | None => ChunkFail end.
Proof.
  revert fuel s failed. induction L as [|c L IH]; intros fuel s failed H Hf;
    (destruct fuel as [|fuel]; [simpl in Hf; lia|]).
  - simpl. destruct failed; reflexivity.
  - apply glob_safe_cons in H as (H1 & H2 & H3 & H4 & H5). simpl in Hf.
    cbn [matchChunk_loop]. rewrite H3, H2, H4.
    destruct failed; simpl.
    + rewrite IH by (assumption || lia). reflexivity.
    + destruct s as [|x s]; simpl.
      * rewrite IH by (assumption || lia). reflexivity.
      * rewrite IH by (assumption || lia).
        destruct (ascii_eqb c x); reflexivity.
Qed.

Lemma matchChunk_safe (L s : str) :
  glob_safe L = true ->
  matchChunk L s = match strip_prefix L s with Some t => ChunkOk t | None => ChunkFail end.
Proof. intros H. unfold matchChunk. rewrite matchChunk_loop_safe; [reflexivity|exact H|lia]. Qed.

Lemma match_loop_star (n : nat) (t : str) :
  match_loop (S n) [star] t = inr (negb (contains_slash t)).
Proof. reflexivity. Qed.

Lemma ascii_eqb_sym (a b : ascii) : ascii_eqb a b = ascii_eqb b a.
Proof.
  destruct (ascii_eqb a b) eqn:E; symmetry.
  - apply ascii_eqb_eq in E. subst. apply ascii_eqb_refl.
  - destruct (ascii_eqb b a) eqn:E'; [|reflexivity].
    apply ascii_eqb_eq in E'. subst. rewrite ascii_eqb_refl in E. discriminate.
Qed.

Lemma star_loop_cons (chunk pattern : str) (c : ascii) (rest : str) :
  star_loop chunk pattern (c :: rest) =
  if ascii_eqb c slash then None
  else match matchChunk chunk rest with
       | ChunkOk t =>
           if is_empty pattern && negb (is_empty t) then star_loop chunk pattern rest
           else Some (inr t)
       | ChunkErr => Some (inl ErrBadPattern)
       | ChunkFail => star_loop chunk pattern rest
       end.
Proof. reflexivity. Qed.

Lemma star_loop_slash (x : ascii) (u : str) :
  ascii_eqb x slash = false ->
  star_loop [slash] [star] (x :: u) = option_map inr (after_slash u).
Proof.
  revert x. induction u as [|y u IH]; intros x Hx;
    rewrite star_loop_cons, Hx, matchChunk_safe by reflexivity; [reflexivity|].
  simpl strip_prefix. rewrite (ascii_eqb_sym slash y).
  destruct (ascii_eqb y slash) eqn:Ey; [simpl; rewrite Ey; reflexivity|].
  rewrite IH by exact Ey. simpl after_slash. rewrite Ey. reflexivity.
Qed.

Lemma match_loop_star_slash_star (n : nat) (t : str) :
  match_loop (S (S n)) [star; slash; star] t = inr (one_slash t).
Proof.
  unfold one_slash. destruct t as [|x t]; [reflexivity|].
  cbn [match_loop]. change (scanChunk [star; slash; star]) with (true, [slash], [star]).
  cbv iota zeta. simpl andb. cbv iota.
  rewrite matchChunk_safe by reflexivity. simpl strip_prefix.
  rewrite (ascii_eqb_sym slash x). simpl after_slash.
  destruct (ascii_eqb x slash) eqn:Ex; [simpl; rewrite orb_true_r; reflexivity|].
  rewrite star_loop_slash by exact Ex. simpl.
  destruct (after_slash t) as [r|]; reflexivity.
Qed.

Lemma match_loop_literal (n : nat) (L r name : str) :
  glob_safe L = true -> L <> [] ->
  match_loop (S n) (L ++ star :: r) name =
  match strip_prefix L name with
  | Some t => match_loop n (star :: r) t
  | None => match check_rest (length (star :: r)) (star :: r) with
            | Some e => inl e
            | None => inr false
            end
  end.
Proof.
  intros H Hne. destruct L as [|c L']; [congruence|].
  change ((c :: L') ++ star :: r) with (c :: (L' ++ star :: r)).
  cbn [match_loop].
  change (c :: (L' ++ star :: r)) with ((c :: L') ++ star :: r).
  rewrite scanChunk_safe by assumption. cbv iota zeta. simpl andb. cbv iota.
  rewrite matchChunk_safe by assumption.
  destruct (strip_prefix (c :: L') name) as [t|]; [|reflexivity].
  simpl negb. rewrite orb_true_r. reflexivity.
Qed.

(** [d + "/*"] (any glob-safe [L], with [L = ""] for the root pattern
    ["*"]) matches exactly the names [L + x] with no ['/'] in [x]. *)
Lemma Match_prefix_star (L name : str) :
  glob_safe L = true ->
  Match (L ++ [star]) name =
  inr (match strip_prefix L name with Some x => negb (contains_slash x) | None => false end).
Proof.
  intros H. destruct L as [|c L']; [reflexivity|].
  unfold Match. rewrite length_app, Nat.add_1_r.
  rewrite match_loop_literal by (assumption || discriminate).
  destruct (strip_prefix (c :: L') name); [|reflexivity].
  simpl length. apply match_loop_star.
Qed.

(** [d + "*/*"] matches exactly the names [d + a + "/" + b] with no
    ['/'] in [a] or [b]. *)
Lemma Match_prefix_star_slash_star (L name : str) :
  glob_safe L = true ->
  Match (L ++ [star; slash; star]) name =
  inr (match strip_prefix L name with Some x => one_slash x | None => false end).
Proof.
  intros H. destruct L as [|c L']; [apply match_loop_star_slash_star|].
  unfold Match. rewrite length_app. simpl length. rewrite Nat.add_comm.
  rewrite match_loop_literal by (assumption || discriminate).
  destruct (strip_prefix (c :: L') name); [|reflexivity].
  simpl length. apply match_loop_star_slash_star.
Qed.

(* ------------------------------------------------------------------ *)
(** ** Directory listings of a normalized, glob-safe directory *)

(** The entries one level below the prefix [L] ([L + x], no ['/'] in
    [x]) and exactly two levels below it. *)
Definition one_below (L : str) (e : IndexEntry) : bool :=
  match strip_prefix L (Name e) with Some x => negb (contains_slash x) | None => false end.

Definition two_below (L : str) (e : IndexEntry) : bool :=
  match strip_prefix L (Name e) with Some x => one_slash x | None => false end.

Lemma Glob_total (index : list IndexEntry) (pattern : str) (f : IndexEntry -> bool) :
  (forall e, In e index -> Match pattern (Name e) = inr (f e)) ->
  Glob index pattern = inr (List.filter f index).
Proof.
  induction index as [|e index IH]; intros H; [reflexivity|].
  simpl. rewrite H by (left; reflexivity). rewrite IH by (intros; apply H; right; assumption).
  reflexivity.
Qed.

Lemma one_below_spec (L : str) (e : IndexEntry) :
  one_below L e = true <-> exists x, Name e = L ++ x /\ contains_slash x = false.
Proof.
  unfold one_below. destruct (strip_prefix L (Name e)) as [x|] eqn:E.
  - apply strip_prefix_spec in E. split.
    + intros H. exists x. split; [exact E|]. destruct (contains_slash x); [discriminate|reflexivity].
    + intros (y & Hy & Hs). rewrite E in Hy. apply app_inv_head in Hy. subst. rewrite Hs. reflexivity.
  - split; [discriminate|]. intros (x & Hx & _).
    apply strip_prefix_spec in Hx. congruence.
Qed.

Lemma two_below_spec (L : str) (e : IndexEntry) :
  two_below L e = true <->
  exists a b, Name e = L ++ a ++ slash :: b /\ contains_slash a = false /\ contains_slash b = false.
Proof.
  unfold two_below. destruct (strip_prefix L (Name e)) as [x|] eqn:E.
  - apply strip_prefix_spec in E. rewrite one_slash_spec. split.
    + intros (a & b & -> & Ha & Hb). exists a, b. auto.
    + intros (a & b & Hn & Ha & Hb). exists a, b. rewrite E in Hn. apply app_inv_head in Hn. auto.
  - split; [discriminate|]. intros (a & b & Hx & _).
    apply strip_prefix_spec in Hx. congruence.
Qed.

Section NormalDir.
Variable segs : list str.
Hypothesis Hgood : Forall good_seg segs.
Hypothesis Hsafe : glob_safe (join_slash segs) = true.

Let d := join_slash segs.

Lemma addTrailingSlash_safe : glob_safe (addTrailingSlash d) = true.
Proof.
  unfold d. rewrite addTrailingSlash_normal by exact Hgood.
  destruct segs; [reflexivity|]. rewrite glob_safe_app, Hsafe. reflexivity.
Qed.

Lemma getDir_pattern : Join2 (addTrailingSlash d) [star] = addTrailingSlash d ++ [star].
Proof.
  unfold d. rewrite addTrailingSlash_normal by exact Hgood.
  destruct segs as [|x l] eqn:E; [reflexivity|].
  rewrite <- E, Join2_dir_star, <- app_assoc by (subst; (exact Hgood || discriminate)).
  reflexivity.
Qed.

Lemma getDir_normal (index : list IndexEntry) :
  getDir index d =
  inr (match List.filter (one_below (addTrailingSlash d)) index with
       | [] => None
       | es => Some (DirInfo (Clean (addTrailingSlash d)) (latest es))
       end).
Proof.
  unfold getDir. rewrite getDir_pattern.
  rewrite (Glob_total _ _ (one_below (addTrailingSlash d))).
  - destruct (List.filter _ _); reflexivity.
  - intros e _. rewrite Match_prefix_star by exact addTrailingSlash_safe. reflexivity.
Qed.

Lemma listFiles_normal (index : list IndexEntry) :
  listFiles index d = inr (map EntryInfo (List.filter (one_below (addTrailingSlash d)) index)).
Proof.
  unfold listFiles.
  rewrite (Glob_total _ _ (one_below (addTrailingSlash d))); [reflexivity|].
  intros e _. rewrite Match_prefix_star by exact addTrailingSlash_safe. reflexivity.
Qed.

Lemma listDirs_normal (index : list IndexEntry) :
  listDirs index d =
  inr (map (fun '(n, mt) => DirInfo n mt)
           (map_to_list (fold_left add_dir (List.filter (two_below (addTrailingSlash d)) index) ∅))).
Proof.
  unfold listDirs.
  rewrite (Glob_total _ _ (two_below (addTrailingSlash d))); [reflexivity|].
  intros e _. rewrite Match_prefix_star_slash_star by exact addTrailingSlash_safe. reflexivity.
Qed.
End NormalDir.

(** The state once [ensureOpen] has opened the session. *)
Definition open_state (w : World) : World :=
  mkWorld (Some (archive w)) (fileWriteModeOpen w) (disk w) (clock w) (faults w)
    (writer_closed w).

(** With a store that reports no error, opening the session and reading
    its index hands the live entries of the archive to the rest of the
    operation. *)
Lemma open_index_healthy {A} (w : World) (cont : list IndexEntry -> M A) :
  faults w = [] ->
  bind ensureOpen (fun _ => bind getIndex cont) w = cont (Filter (archive w)) (open_state w).
Proof.
  destruct w as [[i|] b d c f k]; simpl; intros ->;
    unfold ensureOpen, getIndex, rw_Index, underlying_OpenFile, siva_NewReaderWriter, io_call;
    unfold_M; reflexivity.
Qed.

Lemma filter_nil_iff {T} (f : T -> bool) (l : list T) :
  List.filter f l = [] <-> ~ exists x, In x l /\ f x = true.
Proof.
  induction l as [|x l IH]; simpl.
  - split; [intros _ (x & [] & _)|reflexivity].
  - destruct (f x) eqn:E.
    + split; [discriminate|]. intros H. exfalso. eauto.
    + rewrite IH. split; intros H (y & Hy & Hf); apply H; exists y.
      * destruct Hy as [<-|Hy]; [congruence|auto].
      * auto.
Qed.

(** The [dirs] map of [listDirs] maps each parent directory to the
    latest modification time among the entries in it. *)
Lemma add_dir_lookup (m : gmap str N) (e : IndexEntry) (n : str) :
  add_dir m e !! n =
  if decide (filepath_Dir (Name e) = n) then
    Some (match m !! n with
          | Some old => if N.ltb old (ModTime e) then ModTime e else old
          | None => ModTime e
          end)
  else m !! n.
Proof.
  unfold add_dir. destruct (decide (filepath_Dir (Name e) = n)) as [<-|Hne].
  - destruct (m !! filepath_Dir (Name e)) as [old|] eqn:E.
    + destruct (N.ltb old (ModTime e)); [apply lookup_insert_eq|exact E].
    + apply lookup_insert_eq.
  - destruct (m !! filepath_Dir (Name e)) as [old|];
      [destruct (N.ltb old (ModTime e))|]; try reflexivity;
      apply lookup_insert_ne; exact Hne.
Qed.

Lemma fold_add_dir_spec (es : list IndexEntry) (n : str) :
  (fold_left add_dir es ∅ !! n = None <-> ~ exists e, In e es /\ filepath_Dir (Name e) = n) /\
  (forall t, fold_left add_dir es ∅ !! n = Some t <->
     (exists e, In e es /\ filepath_Dir (Name e) = n /\ ModTime e = t) /\
     (forall e, In e es -> filepath_Dir (Name e) = n -> (ModTime e <= t)%N)).
Proof.
  induction es as [|e es IH] using rev_ind.
  - simpl. rewrite lookup_empty. split.
    + split; [intros _ (e & [] & _)|reflexivity].
    + intros t. split; [discriminate|]. intros ((e & [] & _) & _).
  - rewrite fold_left_app. simpl. rewrite add_dir_lookup. destruct IH as [IHn IHs].
    assert (Hine : In e (es ++ [e])) by (apply in_app_iff; simpl; auto).
    destruct (decide (filepath_Dir (Name e) = n)) as [<-|Hne].
    + split.
      { split; [discriminate|]. intros H. exfalso. apply H. eauto. }
      intros t. destruct (fold_left add_dir es ∅ !! filepath_Dir (Name e)) as [old|] eqn:E.
      * pose proof (proj1 (IHs old) eq_refl) as [(e0 & Hin0 & Hd0 & Ht0) Hmax].
        destruct (N.ltb old (ModTime e)) eqn:Hlt;
          [apply N.ltb_lt in Hlt|apply N.ltb_ge in Hlt]; split.
        -- intros H. inversion H; subst. split; [eauto|].
           intros e' Hin' Hd'. apply in_app_iff in Hin' as [Hin'|[<-|[]]]; [|lia].
           specialize (Hmax e' Hin' Hd'). lia.
        -- intros [(e1 & Hin1 & Hd1 & Ht1) Hmax1].
           assert (ModTime e <= t)%N by (apply Hmax1; auto).
           apply in_app_iff in Hin1 as [Hin1|[<-|[]]].
           ++ specialize (Hmax e1 Hin1 Hd1). lia.
           ++ subst. reflexivity.
        -- intros H. inversion H; subst. split.
           ++ exists e0. split; [apply in_app_iff; auto|auto].
           ++ intros e' Hin' Hd'. apply in_app_iff in Hin' as [Hin'|[<-|[]]]; [apply Hmax; auto|lia].
        -- intros [(e1 & Hin1 & Hd1 & Ht1) Hmax1].
           assert (old <= t)%N by (subst old; apply Hmax1; [apply in_app_iff; auto|exact Hd0]).
           apply in_app_iff in Hin1 as [Hin1|[<-|[]]].
           ++ specialize (Hmax e1 Hin1 Hd1). f_equal. lia.
           ++ f_equal. lia.
      * pose proof (proj1 IHn eq_refl) as Hno. split.
        -- intros H. inversion H; subst. split; [eauto|].
           intros e' Hin' Hd'. apply in_app_iff in Hin' as [Hin'|[<-|[]]]; [|lia].
           exfalso. apply Hno. eauto.
        -- intros [(e1 & Hin1 & Hd1 & Ht1) Hmax1].
           apply in_app_iff in Hin1 as [Hin1|[<-|[]]]; [exfalso; apply Hno; eauto|congruence].
    + assert (Hex : forall P : IndexEntry -> Prop,
                 (exists e', In e' (es ++ [e]) /\ filepath_Dir (Name e') = n /\ P e') <->
                 (exists e', In e' es /\ filepath_Dir (Name e') = n /\ P e')).
      { intros P. split.
        - intros (e' & Hin & Hd & HP). apply in_app_iff in Hin as [Hin|[<-|[]]]; [eauto|congruence].
        - intros (e' & Hin & Hd & HP). exists e'. split; [apply in_app_iff; auto|auto]. }
      assert (Hall : forall P : IndexEntry -> Prop,
                 (forall e', In e' (es ++ [e]) -> filepath_Dir (Name e') = n -> P e') <->
                 (forall e', In e' es -> filepath_Dir (Name e') = n -> P e')).
      { intros P. split.
        - intros H e' Hin Hd. apply H; [apply in_app_iff; auto|exact Hd].
        - intros H e' Hin Hd. apply in_app_iff in Hin as [Hin|[<-|[]]]; [auto|congruence]. }
      split.
      * rewrite IHn. split; intros H (e' & Hin & Hd); apply H.
        -- destruct (proj1 (Hex (fun _ => True)) (ex_intro _ e' (conj Hin (conj Hd I))))
             as (e'' & ? & ? & _). eauto.
        -- destruct (proj2 (Hex (fun _ => True)) (ex_intro _ e' (conj Hin (conj Hd I))))
             as (e'' & ? & ? & _). eauto.
      * intros t. rewrite IHs, (Hex (fun e' => ModTime e' = t)),
          (Hall (fun e' => (ModTime e' <= t)%N)). reflexivity.
Qed.

Lemma map_fst_to_list (l : list (str * N)) : l.*1 = map fst l.
Proof. induction l as [|[a b] l IH]; simpl; [reflexivity|]. rewrite <- IH. reflexivity. Qed.

(* ------------------------------------------------------------------ *)
(** ** Synthetic directories of a normalized directory *)

(** C3 (amended): for a store that reports no error and a path whose
    normalized form [d] has no glob metacharacter and no exact live entry,
    [Stat] returns a synthetic directory named [Clean (d + "/")] exactly
    when some live entry is named [d + "/" + x] with no ['/'] in [x] (one
    level below [d]), and fails with [ErrNotExist] otherwise; entries
    nested deeper do not count. *)
Theorem Stat_synthetic_dir_one_level (w : World) (p : str) :
  faults w = [] -> glob_safe (normalizePath p) = true ->
  Find (Filter (archive w)) (normalizePath p) = None ->
  ((exists e x, In e (Filter (archive w)) /\
      Name e = addTrailingSlash (normalizePath p) ++ x /\ contains_slash x = false) ->
   exists t, fst (Stat p w) = Ok (DirInfo (Clean (addTrailingSlash (normalizePath p))) t)) /\
  ((~ exists e x, In e (Filter (archive w)) /\
      Name e = addTrailingSlash (normalizePath p) ++ x /\ contains_slash x = false) ->
   fst (Stat p w) = Err ErrNotExist).
Proof.
  intros Hf Hs Hfind.
  destruct (normalizePath_segments p) as (segs & Hg & Hn).
  unfold Stat. cbv zeta. rewrite open_index_healthy by exact Hf. rewrite Hfind.
  rewrite Hn in *. rewrite (getDir_normal segs Hg Hs).
  set (L := addTrailingSlash (join_slash segs)).
  assert (Hiff : (exists e x, In e (Filter (archive w)) /\ Name e = L ++ x /\ contains_slash x = false)
                 <-> exists e, In e (Filter (archive w)) /\ one_below L e = true).
  { split.
    - intros (e & x & Hin & Hx). exists e. split; [exact Hin|]. apply one_below_spec. eauto.
    - intros (e & Hin & Hb). apply one_below_spec in Hb as (x & Hx). eauto. }
  rewrite Hiff. unfold_M.
  destruct (List.filter (one_below L) (Filter (archive w))) as [|e0 es] eqn:Ef.
  - apply filter_nil_iff in Ef. split; [intros H; contradiction|reflexivity].
  - split.
    + intros _. eexists. reflexivity.
    + intros H. exfalso. apply H.
      assert (Hin : In e0 (List.filter (one_below L) (Filter (archive w)))) by (rewrite Ef; left; reflexivity).
      apply filter_In in Hin. eauto.
Qed.

(** C4 (amended): for a store that reports no error and a path whose
    normalized form [d] has no glob metacharacter, [Remove] splits three
    ways.  If a live entry is named [d], it appends the tombstone header
    [d] (mode 0, time now, deleted flag) and succeeds, unless the
    session's writer is closed, in which case it fails with
    [ErrClosedWriter] and appends nothing.  Otherwise, if some
    live entry is named [d + "/" + x] with no ['/'] in [x], it fails with
    [ENOTEMPTY]; otherwise with [ErrNotExist].  Entries nested deeper than
    one level do not make [d] a directory. *)
Theorem Remove_three_way (w : World) (p : str) :
  faults w = [] -> glob_safe (normalizePath p) = true ->
  (forall e, Find (Filter (archive w)) (normalizePath p) = Some e ->
     fst (Remove p w) = (if writer_closed w then Err ErrClosedWriter else Ok tt) /\
     archive (snd (Remove p w)) =
       archive w ++ (if writer_closed w then []
                     else [mkEntry (normalizePath p) 0 (clock w) FlagDeleted])) /\
  (Find (Filter (archive w)) (normalizePath p) = None ->
   (exists e x, In e (Filter (archive w)) /\
      Name e = addTrailingSlash (normalizePath p) ++ x /\ contains_slash x = false) ->
   fst (Remove p w) = Err (ENOTEMPTY_err (lit "remove") (normalizePath p))) /\
  (Find (Filter (archive w)) (normalizePath p) = None ->
   (~ exists e x, In e (Filter (archive w)) /\
      Name e = addTrailingSlash (normalizePath p) ++ x /\ contains_slash x = false) ->
   fst (Remove p w) = Err ErrNotExist).
Proof.
  intros Hf Hs.
  destruct (normalizePath_segments p) as (segs & Hg & Hn).
  unfold Remove. cbv zeta. rewrite open_index_healthy by exact Hf.
  rewrite Hn in *.
  set (L := addTrailingSlash (join_slash segs)).
  assert (Hiff : (exists e x, In e (Filter (archive w)) /\ Name e = L ++ x /\ contains_slash x = false)
                 <-> exists e, In e (Filter (archive w)) /\ one_below L e = true).
  { split.
    - intros (e & x & Hin & Hx). exists e. split; [exact Hin|]. apply one_below_spec. eauto.
    - intros (e & Hin & Hb). apply one_below_spec in Hb as (x & Hx). eauto. }
  rewrite Hiff. split; [|split].
  - intros e He. rewrite He.
    unfold time_Now, rw_WriteHeader, check_writer, io_call, open_state; unfold_M; simpl.
    destruct (writer_closed w); simpl; [rewrite app_nil_r; split; reflexivity|].
    rewrite Hf. split; reflexivity.
  - intros He Hex. rewrite He, (getDir_normal segs Hg Hs). fold L. unfold_M.
    destruct (List.filter (one_below L) (Filter (archive w))) as [|e0 es] eqn:Ef; [|reflexivity].
    apply filter_nil_iff in Ef. contradiction.
  - intros He Hno. rewrite He, (getDir_normal segs Hg Hs). fold L. unfold_M.
    destruct (List.filter (one_below L) (Filter (archive w))) as [|e0 es] eqn:Ef; [reflexivity|].
    exfalso. apply Hno.
    assert (Hin : In e0 (List.filter (one_below L) (Filter (archive w)))) by (rewrite Ef; left; reflexivity).
    apply filter_In in Hin. eauto.
Qed.

(** C7 (amended): for a store that reports no error and a path whose
    normalized form [d] has no glob metacharacter, [ReadDir] returns its
    synthetic child directories followed by the file entries directly in
    [d]: the live entries named [d + "/" + x] with no ['/'] in [x].  The
    child directories have distinct names.  [DirInfo n t] is among them exactly
    when [n] is [filepath.Dir] of some live entry named
    [d + "/" + a + "/" + b] (no ['/'] in [a] or [b], so exactly two levels
    below [d]) and [t] is the largest modification time among those
    entries with that parent.  Entries nested deeper do not count.  In
    particular, creating ["a/b/c"] in an empty archive (on a store that
    reports no error and with the writer not closed, so that the create
    succeeds) and then reading ["a"] yields the one directory ["a/b"]
    with the creation time. *)
Theorem ReadDir_child_dirs (w : World) (p : str) :
  faults w = [] -> glob_safe (normalizePath p) = true ->
  (exists dirs es,
     fst (ReadDir p w) = Ok (dirs ++ map EntryInfo es) /\
     (forall e, In e es <->
        In e (Filter (archive w)) /\
        exists x, Name e = addTrailingSlash (normalizePath p) ++ x /\ contains_slash x = false) /\
     (forall fi, In fi dirs -> exists n t, fi = DirInfo n t) /\
     NoDup (map (fun fi => match fi with DirInfo n _ => n | EntryInfo e => Name e end) dirs) /\
     (forall n t, In (DirInfo n t) dirs <->
        (exists e, In e (Filter (archive w)) /\
           (exists a b, Name e = addTrailingSlash (normalizePath p) ++ a ++ slash :: b /\
                        contains_slash a = false /\ contains_slash b = false) /\
           filepath_Dir (Name e) = n /\ ModTime e = t) /\
        (forall e, In e (Filter (archive w)) ->
           (exists a b, Name e = addTrailingSlash (normalizePath p) ++ a ++ slash :: b /\
                        contains_slash a = false /\ contains_slash b = false) ->
           filepath_Dir (Name e) = n -> (ModTime e <= t)%N))) /\
  (forall w0, faults w0 = [] -> fileWriteModeOpen w0 = false -> archive w0 = [] ->
     writer_closed w0 = false ->
     fst (ReadDir (lit "a") (snd (Create (lit "a/b/c") w0))) = Ok [DirInfo (lit "a/b") (clock w0)]).
Proof.
  intros Hf Hs. split.
  2:{ intros [[i|] b d c f k] Hf0 Hb0 Ha0 Hk0; unfold archive, writer_closed in *;
      simpl in Hf0, Hb0, Ha0, Hk0; subst; vm_compute; reflexivity. }
  destruct (normalizePath_segments p) as (segs & Hg & Hn).
  unfold ReadDir. cbv zeta. rewrite open_index_healthy by exact Hf.
  rewrite Hn in *. rewrite (listFiles_normal segs Hg Hs), (listDirs_normal segs Hg Hs).
  set (L := addTrailingSlash (join_slash segs)).
  set (es := List.filter (two_below L) (Filter (archive w))).
  set (m := fold_left add_dir es ∅).
  unfold_M. simpl fst.
  eexists _, _. split; [reflexivity|].
  split; [|split; [|split]].
  - intros e. rewrite filter_In, one_below_spec. reflexivity.
  - intros fi Hfi. apply in_map_iff in Hfi as ([n t] & <- & _). eauto.
  - rewrite map_map.
    replace (map _ (map_to_list m)) with (map fst (map_to_list m))
      by (apply map_ext; intros [n t]; reflexivity).
    rewrite <- map_fst_to_list. apply NoDup_fst_map_to_list.
  - intros n t.
    transitivity (m !! n = Some t).
    { rewrite <- elem_of_map_to_list, list_elem_of_In, in_map_iff. split.
      - intros ([n' t'] & Heq & Hin). inversion Heq; subst. exact Hin.
      - intros Hin. exists (n, t). auto. }
    unfold m. rewrite (proj2 (fold_add_dir_spec es n) t).
    assert (Hes : forall e, In e es <->
               In e (Filter (archive w)) /\
               exists a b, Name e = L ++ a ++ slash :: b /\
                           contains_slash a = false /\ contains_slash b = false).
    { intros e. unfold es. rewrite filter_In, two_below_spec. reflexivity. }
    split.
    + intros [(e & Hin & Hd & Ht) Hmax]. split.
      * apply Hes in Hin as [Hin Hab]. eauto.
      * intros e' Hin' Hab' Hd'. apply Hmax; [apply Hes; auto|exact Hd'].
    + intros [(e & Hin & Hab & Hd & Ht) Hmax]. split.
      * exists e. split; [apply Hes; auto|auto].
      * intros e' Hin' Hd'. apply Hes in Hin' as [Hin' Hab']. apply Hmax; assumption.
Qed.

Lemma Stat_synthetic_dir_one_level_witness :
  faults (session_with ["a/b"]) = [] /\
  glob_safe (normalizePath (lit "a")) = true /\
  Find (Filter (archive (session_with ["a/b"]))) (normalizePath (lit "a")) = None /\
  exists t, fst (Stat (lit "a") (session_with ["a/b"])) =
              Ok (DirInfo (Clean (addTrailingSlash (normalizePath (lit "a")))) t).
Proof.
  assert (H1 : faults (session_with ["a/b"]) = []) by reflexivity.
  assert (H2 : glob_safe (normalizePath (lit "a")) = true) by (vm_compute; reflexivity).
  assert (H3 : Find (Filter (archive (session_with ["a/b"]))) (normalizePath (lit "a")) = None)
    by (vm_compute; reflexivity).
  split; [exact H1|]. split; [exact H2|]. split; [exact H3|].
  apply (proj1 (Stat_synthetic_dir_one_level (session_with ["a/b"]) (lit "a") H1 H2 H3)).
  exists (file_entry "a/b" 5), (lit "b").
  split; [vm_compute; left; reflexivity|]. split; vm_compute; reflexivity.
Defined.

Lemma Remove_three_way_witness :
  faults (session_with ["a"]) = [] /\
  glob_safe (normalizePath (lit "/a")) = true /\
  fst (Remove (lit "/a") (session_with ["a"])) = Ok tt /\
  archive (snd (Remove (lit "/a") (session_with ["a"]))) =
    [file_entry "a" 5; mkEntry (lit "a") 0 9 FlagDeleted].
Proof.
  assert (H1 : faults (session_with ["a"]) = []) by reflexivity.
  assert (H2 : glob_safe (normalizePath (lit "/a")) = true) by (vm_compute; reflexivity).
  assert (H3 : Find (Filter (archive (session_with ["a"]))) (normalizePath (lit "/a")) =
               Some (file_entry "a" 5)) by (vm_compute; reflexivity).
  destruct (proj1 (Remove_three_way (session_with ["a"]) (lit "/a") H1 H2) _ H3) as [Hr Ha].
  split; [exact H1|]. split; [exact H2|]. split; [exact Hr|].
  rewrite Ha. vm_compute. reflexivity.
Defined.

Lemma ReadDir_child_dirs_witness :
  faults (session_with ["a/b/c"; "a/d"]) = [] /\
  glob_safe (normalizePath (lit "a")) = true /\
  exists dirs es,
    fst (ReadDir (lit "a") (session_with ["a/b/c"; "a/d"])) = Ok (dirs ++ map EntryInfo es) /\
    In (DirInfo (lit "a/b") 5) dirs /\ In (file_entry "a/d" 5) es.
Proof.
  assert (H1 : faults (session_with ["a/b/c"; "a/d"]) = []) by reflexivity.
  assert (H2 : glob_safe (normalizePath (lit "a")) = true) by (vm_compute; reflexivity).
  destruct (proj1 (ReadDir_child_dirs (session_with ["a/b/c"; "a/d"]) (lit "a") H1 H2))
    as (dirs & es & Hrd & Hes & _ & _ & Hdirs).
  split; [exact H1|]. split; [exact H2|]. exists dirs, es. split; [exact Hrd|].
  split.
  2:{ apply Hes. split; [vm_compute; auto|]. exists (lit "d"). split; vm_compute; reflexivity. }
  apply Hdirs. split.
  - exists (file_entry "a/b/c" 5). split; [vm_compute; auto|].
    split; [exists (lit "b"), (lit "c"); vm_compute; auto|]. split; vm_compute; reflexivity.
  - intros e He _ _. vm_compute in He. destruct He as [<-|[<-|[]]]; vm_compute; discriminate.
Defined.

(* ------------------------------------------------------------------ *)
(** ** The live index: [Filter] and [Find] *)

Lemma Find_Some (L : list IndexEntry) (n : str) (e : IndexEntry) :
  Find L n = Some e -> In e L /\ Name e = n.
Proof.
  unfold Find. intros H. apply find_some in H as [Hin Heq].
  apply str_eqb_eq in Heq. auto.
Qed.

Lemma Find_None (L : list IndexEntry) (n : str) :
  Find L n = None <-> forall e, In e L -> Name e <> n.
Proof.
  unfold Find. split.
  - intros H e Hin Heq. apply (find_none _ _ H) in Hin. subst.
    rewrite (proj2 (str_eqb_eq _ _) eq_refl) in Hin. discriminate.
  - induction L as [|e L IH]; intros H; [reflexivity|]. simpl.
    destruct (str_eqb (Name e) n) eqn:E.
    + apply str_eqb_eq in E. exfalso. apply (H e); [left|]; auto.
    + apply IH. intros e' Hin. apply H. right. exact Hin.
Qed.

(** The entries not named [x]. *)
Definition drop_name (x : str) (L : list IndexEntry) : list IndexEntry :=
  List.filter (fun e => negb (str_eqb (Name e) x)) L.

Lemma filter_from_ext (s1 s2 : list str) (l : list IndexEntry) :
  (forall n, existsb (str_eqb n) s1 = existsb (str_eqb n) s2) ->
  filter_from s1 l = filter_from s2 l.
Proof.
  revert s1 s2. induction l as [|e l IH]; intros s1 s2 H; [reflexivity|].
  simpl. rewrite H. destruct (existsb (str_eqb (Name e)) s2); [apply IH; exact H|].
  assert (H' : forall n, existsb (str_eqb n) (Name e :: s1) = existsb (str_eqb n) (Name e :: s2))
    by (intros n; simpl; rewrite H; reflexivity).
  destruct (is_deleted e); rewrite (IH _ _ H'); reflexivity.
Qed.

Lemma drop_name_idem (x : str) (L : list IndexEntry) : drop_name x (drop_name x L) = drop_name x L.
Proof.
  unfold drop_name. induction L as [|e L IH]; [reflexivity|]. simpl.
  destruct (negb (str_eqb (Name e) x)) eqn:E; simpl; [rewrite E, IH|]; auto.
Qed.

Lemma drop_name_cons (x : str) (e : IndexEntry) (L : list IndexEntry) :
  drop_name x (e :: L) = if negb (str_eqb (Name e) x) then e :: drop_name x L else drop_name x L.
Proof. reflexivity. Qed.

Lemma filter_from_seen (x : str) (seen : list str) (l : list IndexEntry) :
  filter_from (x :: seen) l = drop_name x (filter_from seen l).
Proof.
  revert seen. induction l as [|e l IH]; intros seen; [reflexivity|].
  cbn [filter_from existsb].
  destruct (str_eqb (Name e) x) eqn:Ex.
  - simpl. destruct (existsb (str_eqb (Name e)) seen).
    + apply IH.
    + apply str_eqb_eq in Ex. subst x.
      destruct (is_deleted e).
      * rewrite !IH. symmetry. apply drop_name_idem.
      * rewrite drop_name_cons, (proj2 (str_eqb_eq _ _) eq_refl). simpl.
        rewrite !IH. symmetry. apply drop_name_idem.
  - simpl. destruct (existsb (str_eqb (Name e)) seen); [apply IH|].
    assert (Hsw : filter_from (Name e :: x :: seen) l = filter_from (x :: Name e :: seen) l).
    { apply filter_from_ext. intros n. simpl.
      destruct (str_eqb n (Name e)), (str_eqb n x); reflexivity. }
    destruct (is_deleted e).
    + rewrite Hsw, IH. reflexivity.
    + rewrite Hsw, IH, drop_name_cons, Ex. reflexivity.
Qed.

Lemma drop_name_rev (x : str) (L : list IndexEntry) :
  drop_name x (rev L) = rev (drop_name x L).
Proof.
  unfold drop_name. induction L as [|e L IH]; [reflexivity|]. simpl.
  rewrite List.filter_app, IH. simpl.
  destruct (negb (str_eqb (Name e) x)); simpl; [reflexivity|apply app_nil_r].
Qed.

(** Writing a header [h] puts it at the end of the live index (unless it
    is a tombstone) and hides every older entry of its name. *)
Lemma Filter_snoc (L : list IndexEntry) (h : IndexEntry) :
  Filter (L ++ [h]) = drop_name (Name h) (Filter L) ++ (if is_deleted h then [] else [h]).
Proof.
  unfold Filter. rewrite rev_app_distr. simpl.
  destruct (is_deleted h); simpl; rewrite filter_from_seen, drop_name_rev;
    [symmetry; apply app_nil_r|reflexivity].
Qed.

Lemma Find_app (L1 L2 : list IndexEntry) (n : str) :
  Find (L1 ++ L2) n = match Find L1 n with Some e => Some e | None => Find L2 n end.
Proof.
  unfold Find. induction L1 as [|e L1 IH]; [reflexivity|]. simpl.
  destruct (str_eqb (Name e) n); [reflexivity|exact IH].
Qed.

Lemma Find_drop_name_same (x : str) (L : list IndexEntry) : Find (drop_name x L) x = None.
Proof.
  apply Find_None. intros e Hin. unfold drop_name in Hin. apply filter_In in Hin as [_ H].
  intros <-. rewrite (proj2 (str_eqb_eq _ _) eq_refl) in H. discriminate.
Qed.

Lemma Find_drop_name_other (x n : str) (L : list IndexEntry) :
  n <> x -> Find (drop_name x L) n = Find L n.
Proof.
  intros Hne. unfold Find, drop_name. induction L as [|e L IH]; [reflexivity|]. simpl.
  destruct (str_eqb (Name e) x) eqn:Ex; simpl.
  - rewrite IH. apply str_eqb_eq in Ex. subst x.
    destruct (str_eqb (Name e) n) eqn:En; [apply str_eqb_eq in En; congruence|reflexivity].
  - rewrite IH. reflexivity.
Qed.

Lemma Find_Filter_snoc_same (L : list IndexEntry) (h : IndexEntry) :
  Find (Filter (L ++ [h])) (Name h) = if is_deleted h then None else Some h.
Proof.
  rewrite Filter_snoc, Find_app, Find_drop_name_same. destruct (is_deleted h); simpl.
  - reflexivity.
  - unfold Find. simpl. rewrite (proj2 (str_eqb_eq _ _) eq_refl). reflexivity.
Qed.

Lemma Find_Filter_snoc_other (L : list IndexEntry) (h : IndexEntry) (n : str) :
  n <> Name h -> Find (Filter (L ++ [h])) n = Find (Filter L) n.
Proof.
  intros Hne. rewrite Filter_snoc, Find_app, Find_drop_name_other by exact Hne.
  destruct (Find (Filter L) n); [reflexivity|].
  destruct (is_deleted h); [reflexivity|]. unfold Find. simpl.
  destruct (str_eqb (Name h) n) eqn:E; [apply str_eqb_eq in E; congruence|reflexivity].
Qed.

(** The live index holds no tombstone, and no two of its entries share a
    name. *)
Lemma filter_from_live (seen : list str) (l : list IndexEntry) :
  (forall e, In e (filter_from seen l) ->
     is_deleted e = false /\ existsb (str_eqb (Name e)) seen = false) /\
  NoDup (map Name (filter_from seen l)).
Proof.
  revert seen. induction l as [|e l IH]; intros seen; simpl.
  - split; [intros _ []|constructor].
  - destruct (existsb (str_eqb (Name e)) seen) eqn:Es; [apply IH|].
    destruct (IH (Name e :: seen)) as [H1 H2].
    assert (Hsub : forall e', In e' (filter_from (Name e :: seen) l) ->
                     is_deleted e' = false /\ existsb (str_eqb (Name e')) seen = false).
    { intros e' Hin. destruct (H1 e' Hin) as [Hd Hs]. simpl in Hs.
      apply orb_false_iff in Hs as [_ Hs]. auto. }
    destruct (is_deleted e) eqn:Ed.
    + split; [exact Hsub|exact H2].
    + split.
      * intros e' [<-|Hin]; [auto|apply Hsub; exact Hin].
      * simpl. constructor; [|exact H2].
        intros Hin. apply list_elem_of_In, in_map_iff in Hin as (e' & Hn & Hin).
        destruct (H1 e' Hin) as [_ Hs]. simpl in Hs. rewrite Hn in Hs.
        rewrite (proj2 (str_eqb_eq _ _) eq_refl) in Hs. discriminate.
Qed.

Lemma Filter_live (L : list IndexEntry) :
  (forall e, In e (Filter L) -> is_deleted e = false) /\ NoDup (map Name (Filter L)).
Proof.
  destruct (filter_from_live [] (rev L)) as [H1 H2]. unfold Filter. split.
  - intros e Hin. apply in_rev in Hin. apply (H1 e Hin).
  - rewrite map_rev, <- Permutation_rev. exact H2.
Qed.

(** [latest] is the largest modification time of a non-empty list. *)
Lemma latest_spec (es : list IndexEntry) :
  es <> [] ->
  (exists e, In e es /\ ModTime e = latest es) /\
  (forall e, In e es -> (ModTime e <= latest es)%N).
Proof.
  unfold latest.
  assert (G : forall l acc,
    (acc = fold_left (fun old e => if N.ltb old (ModTime e) then ModTime e else old) l acc \/
     exists e, In e l /\ ModTime e = fold_left (fun old e => if N.ltb old (ModTime e) then ModTime e else old) l acc) /\
    (acc <= fold_left (fun old e => if N.ltb old (ModTime e) then ModTime e else old) l acc)%N /\
    (forall e, In e l -> (ModTime e <= fold_left (fun old e => if N.ltb old (ModTime e) then ModTime e else old) l acc)%N)).
  { induction l as [|x l IH]; intros acc; simpl.
    - split; [left; reflexivity|]. split; [lia|intros _ []].
    - destruct (IH (if N.ltb acc (ModTime x) then ModTime x else acc)) as (Ha & Hb & Hc).
      destruct (N.ltb acc (ModTime x)) eqn:Hlt; [apply N.ltb_lt in Hlt|apply N.ltb_ge in Hlt].
      + split; [right; destruct Ha as [Ha|(e & He & Ht)]; [exists x; auto|exists e; auto]|].
        split; [lia|]. intros e [<-|He]; [lia|auto].
      + split; [destruct Ha as [Ha|(e & He & Ht)]; [left; exact Ha|right; exists e; auto]|].
        split; [lia|]. intros e [<-|He]; [lia|auto]. }
  intros Hne. destruct (G es 0%N) as (Ha & _ & Hc). split; [|exact Hc].
  destruct Ha as [Ha|Ha]; [|exact Ha].
  destruct es as [|x es]; [congruence|]. exists x. split; [left; reflexivity|].
  specialize (Hc x (or_introl eq_refl)). rewrite <- Ha in Hc |- *. lia.
Qed.

(* ------------------------------------------------------------------ *)
(** ** Operations that write nothing *)

(** [keeps m]: from any state, [m] leaves the archive's contents and the
    writer-busy flag as they were. *)
Definition keeps {A} (m : M A) : Prop :=
  forall w, archive (snd (m w)) = archive w /\ fileWriteModeOpen (snd (m w)) = fileWriteModeOpen w.

Lemma keeps_ret {A} (a : A) : keeps (ret a).
Proof. intros w. auto. Qed.

Lemma keeps_throw {A} (e : error) : keeps (@throw A e).
Proof. intros w. auto. Qed.

Lemma keeps_get : keeps get.
Proof. intros w. auto. Qed.

Lemma keeps_lift {A} (r : error + A) : keeps (lift r).
Proof. intros w. unfold lift. destruct r; auto. Qed.

Lemma keeps_io_call : keeps io_call.
Proof.
  intros [r b d c f]. unfold io_call, archive. simpl.
  destruct f as [|[x|] f]; simpl; auto.
Qed.

Lemma keeps_bind {A B} (m : M A) (k : A -> M B) :
  keeps m -> (forall a, keeps (k a)) -> keeps (bind m k).
Proof.
  intros Hm Hk w. unfold bind. destruct (Hm w) as [H1 H2].
  destruct (m w) as [[a|e] w'] eqn:E; simpl in *.
  - destruct (Hk a w') as [H3 H4]. rewrite H3, H4. auto.
  - auto.
Qed.

Lemma keeps_with_rw {A} (k : list IndexEntry -> M A) :
  (forall i, keeps (k i)) -> keeps (with_rw k).
Proof.
  intros Hk. unfold with_rw. apply keeps_bind; [apply keeps_get|].
  intros w. destruct (rw w); [apply Hk|apply keeps_throw].
Qed.

Lemma keeps_ensureOpen : keeps ensureOpen.
Proof.
  intros w. destruct (ensureOpen w) as [r w'] eqn:E. simpl.
  apply ensureOpen_keeps in E as (H1 & H2 & _). auto.
Qed.

Lemma keeps_getIndex : keeps getIndex.
Proof.
  unfold getIndex, rw_Index. apply keeps_bind; [|intros; apply keeps_ret].
  apply keeps_with_rw. intros i. apply keeps_bind; [apply keeps_io_call|intros; apply keeps_ret].
Qed.

Create HintDb keeps.
#[local] Hint Resolve keeps_ret keeps_throw keeps_get keeps_lift keeps_io_call
  keeps_ensureOpen keeps_getIndex : keeps.
#[local] Hint Extern 1 (keeps (bind _ _)) => apply keeps_bind; [|intro] : keeps.
#[local] Hint Extern 1 (keeps (with_rw _)) => apply keeps_with_rw; intro : keeps.
#[local] Hint Extern 2 (keeps (match ?x with _ => _ end)) => destruct x : keeps.
#[local] Hint Extern 2 (keeps (if ?x then _ else _)) => destruct x : keeps.

Lemma keeps_openFile (p : str) (flag : Z) (mode : N) : keeps (openFile p flag mode).
Proof. unfold openFile, rw_Get. auto 20 with keeps. Qed.

(* ------------------------------------------------------------------ *)
(** ** Extra properties of the code *)

(** [normalizePath] is idempotent: a normalized path normalizes to
    itself. *)
Lemma normalizePath_idem (p : str) :
  normalizePath (normalizePath p) = normalizePath p.
Proof.
  destruct (normalizePath_segments p) as (segs & Hg & ->).
  assert (Hsf : Forall (fun x => contains_slash x = false) segs).
  { eapply Forall_impl; [exact Hg|]. intros x (_ & H & _). exact H. }
  unfold normalizePath at 1, Join2. simpl is_empty. cbv iota.
  change ([slash] ++ slash :: join_slash segs) with (slash :: slash :: join_slash segs).
  unfold Clean. cbv zeta. simpl ascii_eqb. cbv iota.
  change (split_slash (slash :: slash :: join_slash segs))
    with ([] :: [] :: split_slash (join_slash segs)).
  destruct segs as [|x l] eqn:E.
  - reflexivity.
  - rewrite <- E in *. rewrite split_join by (subst; (discriminate || exact Hsf)).
    simpl fold_left. change (clean_step true (clean_step true [] []) []) with (@nil str).
    rewrite clean_fold_good, app_nil_r, rev_involutive by exact Hg. reflexivity.
Qed.

(** A normalized path is relative and clean: it is empty (the root) or
    its ['/']-separated segments are all non-empty and none is ["."] or
    [".."], so it has no leading, trailing or doubled ['/']. *)
Theorem normalizePath_clean_segments (p : str) :
  normalizePath p = [] \/ Forall good_seg (split_slash (normalizePath p)).
Proof.
  destruct (normalizePath_segments p) as (segs & Hg & ->).
  destruct segs as [|x l] eqn:E; [left; reflexivity|right].
  rewrite <- E in *. rewrite split_join; [exact Hg|subst; discriminate|].
  eapply Forall_impl; [exact Hg|]. intros y (_ & H & _). exact H.
Qed.

(** [Sync] never changes the archive's contents or the writer-busy flag,
    whatever the store reports.  With a store that reports no error and a
    writer not closed it closes the session and the backing file holds
    the whole index; with the writer of the open session closed (by an
    earlier failed [Sync]) it fails with [ErrClosedWriter] and changes
    nothing. *)
Theorem Sync_persists_archive (w : World) :
  archive (snd (Sync w)) = archive w /\
  fileWriteModeOpen (snd (Sync w)) = fileWriteModeOpen w /\
  (faults w = [] -> writer_closed w = false ->
     rw (snd (Sync w)) = None /\ disk (snd (Sync w)) = archive w) /\
  (writer_closed w = true -> Sync w = (Err ErrClosedWriter, w)).
Proof.
  destruct w as [[i|] b d c f k]; unfold writer_closed; simpl.
  2:{ unfold Sync, ensureClosed, archive; unfold_M; simpl. split; [|split]; auto.
      split; [auto|discriminate]. }
  split; [|split; [|split]].
  4:{ intros ->. apply Sync_closed_writer; simpl; [discriminate|reflexivity]. }
  all: unfold Sync, ensureClosed, rw_Close, check_writer, f_Close, io_call, archive;
    unfold_M; simpl.
  all: destruct k; simpl; [try reflexivity; discriminate|].
  all: destruct f as [|[x|] f]; simpl; try reflexivity; try discriminate;
    try (destruct f as [|[y|] f]; simpl; reflexivity).
  auto.
Qed.

(** [Stat], [ReadDir], [MkdirAll] and [Open] write nothing: whatever the
    store reports, the archive's contents and the writer-busy flag are
    left as they were. *)
Theorem queries_write_nothing (p : str) (perm : N) :
  keeps (Stat p) /\ keeps (ReadDir p) /\ keeps (MkdirAll p perm) /\ keeps (Open p).
Proof.
  split; [|split; [|split]].
  - unfold Stat. auto 20 with keeps.
  - unfold ReadDir. auto 20 with keeps.
  - unfold MkdirAll. auto 20 with keeps.
  - unfold Open, OpenFile. cbv zeta.
    replace (has O_RDONLY O_CREATE) with false by reflexivity. simpl.
    apply keeps_bind; [apply keeps_ensureOpen|intros _; apply keeps_openFile].
Qed.

Lemma ensureOpen_clock (w : World) : clock (snd (ensureOpen w)) = clock w.
Proof.
  destruct w as [[i|] b d c f k]; unfold ensureOpen; unfold_M; simpl; [reflexivity|].
  unfold underlying_OpenFile, siva_NewReaderWriter, f_Close, io_call; simpl.
  destruct f as [|[x|] f]; simpl; [reflexivity|reflexivity|].
  destruct f as [|[y|] f]; simpl; [reflexivity| |reflexivity].
  destruct f as [|[z|] f]; reflexivity.
Qed.

Lemma openFile_no_write_handle (p : str) (flag : Z) (mode : N) (w : World) :
  match fst (openFile p flag mode w) with Ok (WriteFile _ _) => False | _ => True end.
Proof.
  unfold openFile. destruct (has flag O_RDWR || has flag O_WRONLY); [exact I|].
  unfold bind at 1. destruct (getIndex w) as [[index|e] w1]; [|exact I].
  destruct (Find index p); [|exact I].
  unfold bind. destruct (rw_Get i w1) as [[[]|e] w2]; exact I.
Qed.

(** The only writes [OpenFile] does, whatever the flags and whatever the
    store reports: when it hands out a write handle, that handle is for
    the normalized path with the caller's flag, exactly one header (the
    normalized path, the caller's mode, the current time, no flags) has
    been appended to the archive, and the writer-busy flag went from
    false to true.  In every other outcome (read handle or error) the
    archive and the writer-busy flag are unchanged. *)
Theorem OpenFile_write_effect (p : str) (flag : Z) (mode : N) (w : World) :
  let (r, w') := OpenFile p flag mode w in
  match r with
  | Ok (WriteFile n f) =>
      n = normalizePath p /\ f = flag /\
      archive w' = archive w ++ [mkEntry (normalizePath p) mode (clock w) 0] /\
      fileWriteModeOpen w = false /\ fileWriteModeOpen w' = true
  | _ => archive w' = archive w /\ fileWriteModeOpen w' = fileWriteModeOpen w
  end.
Proof.
  unfold OpenFile. cbv zeta.
  destruct (has flag O_CREATE && negb (has flag O_TRUNC)); [unfold throw; auto|].
  unfold bind at 1. pose proof (ensureOpen_clock w) as Hc.
  destruct (ensureOpen w) as [r1 w1] eqn:E. simpl in Hc.
  apply ensureOpen_keeps in E as (H1 & H2 & H3 & _).
  destruct r1 as [[]|e]; [|auto]. specialize (H3 eq_refl).
  destruct (has flag O_CREATE).
  - unfold bind at 1, get. destruct (fileWriteModeOpen w1) eqn:B; [unfold throw; split; congruence|].
    unfold createFile. destruct (has flag O_RDWR || has flag O_RDONLY); [unfold throw; split; congruence|].
    destruct w1 as [r b d c f k]; simpl in *. subst.
    unfold time_Now, rw_WriteHeader, check_writer, io_call; unfold_M; simpl.
    destruct k; simpl; [auto|].
    destruct f as [|[x|] f]; simpl; unfold archive; simpl; auto.
  - pose proof (keeps_openFile (normalizePath p) flag mode w1) as [K1 K2].
    pose proof (openFile_no_write_handle (normalizePath p) flag mode w1) as Hn.
    destruct (openFile (normalizePath p) flag mode w1) as [[[n f|n e]|e] w2]; simpl in *;
      [contradiction| |]; rewrite K1, K2; auto.
Qed.

(** The only write [Remove] does, whatever the store reports: either the
    archive is unchanged, or the call succeeded and appended exactly one
    tombstone (the normalized path, mode 0, the current time, the deleted
    flag).  The writer-busy flag is never changed. *)
Theorem Remove_write_effect (p : str) (w : World) :
  fileWriteModeOpen (snd (Remove p w)) = fileWriteModeOpen w /\
  (archive (snd (Remove p w)) = archive w \/
   (fst (Remove p w) = Ok tt /\
    archive (snd (Remove p w)) =
      archive w ++ [mkEntry (normalizePath p) 0 (clock w) FlagDeleted])).
Proof.
  enough (H : let (r, w') := Remove p w in
              fileWriteModeOpen w' = fileWriteModeOpen w /\
              (archive w' = archive w \/
               (r = Ok tt /\ archive w' =
                  archive w ++ [mkEntry (normalizePath p) 0 (clock w) FlagDeleted])))
    by (destruct (Remove p w); exact H).
  unfold Remove. cbv zeta. set (d := normalizePath p).
  unfold bind at 1. pose proof (ensureOpen_clock w) as Hc.
  destruct (ensureOpen w) as [r1 w1] eqn:E. simpl in Hc.
  apply ensureOpen_keeps in E as (H1 & H2 & H3 & _).
  destruct r1 as [[]|e]; [|simpl; auto]. specialize (H3 eq_refl).
  unfold bind at 1. pose proof (keeps_getIndex w1) as [K1 K2].
  assert (Hc2 : clock (snd (getIndex w1)) = clock w1).
  { destruct w1 as [r b d' c f k]; simpl in H3; subst r.
    unfold getIndex, rw_Index, io_call; unfold_M; simpl.
    destruct f as [|[x|] f]; reflexivity. }
  assert (Hr2 : forall i w2, getIndex w1 = (Ok i, w2) -> rw w2 = Some (archive w)).
  { intros i w2 G. destruct w1 as [r b d' c f k]; simpl in H3; subst r.
    unfold getIndex, rw_Index, io_call in G; unfold_M; simpl in G.
    destruct f as [|[x|] f]; inversion G; reflexivity. }
  destruct (getIndex w1) as [[index|e] w2] eqn:G; simpl in K1, K2, Hc2;
    [|cbn [fst snd]; rewrite K1, K2; auto].
  specialize (Hr2 _ _ eq_refl).
  destruct (Find index d).
  - destruct w2 as [r b d' c f k]; simpl in *. subst.
    unfold time_Now, rw_WriteHeader, check_writer, io_call; unfold_M; simpl.
    destruct k; simpl; [auto|].
    destruct f as [|[x|] f]; simpl; unfold archive; simpl; (split; [congruence|]);
      first [left; congruence | right; split; [reflexivity|congruence]].
  - unfold bind, lift. destruct (getDir index d) as [e|[fi|]];
      [|unfold throw|unfold throw]; cbn [fst snd]; rewrite K1, K2; auto.
Qed.

(** [Create] from any session state, with no busy writer, a store that
    reports no error and a writer not closed. *)
Lemma Create_healthy_any (w : World) (p : str) :
  fileWriteModeOpen w = false -> faults w = [] -> writer_closed w = false ->
  Create p w =
    (Ok (WriteFile (normalizePath p) create_flags),
     set_busy true (set_rw (Some (archive w ++ [mkEntry (normalizePath p) 438 (clock w) 0]))
                     (open_state w))).
Proof.
  destruct w as [[i|] b d c f k]; unfold writer_closed; simpl; intros -> -> ?; subst;
    unfold Create, OpenFile, createFile, ensureOpen, underlying_OpenFile,
      siva_NewReaderWriter, io_call; simpl; reflexivity.
Qed.

(** [Open], with the flag tests of [OpenFile] and [openFile] evaluated. *)
Lemma Open_unfold (p : str) (w : World) :
  Open p w =
  bind ensureOpen (fun _ => bind getIndex (fun index =>
    match Find index (normalizePath p) with
    | None => throw ErrNotExist
    | Some e => let! _ := rw_Get e in ret (ReadFile (normalizePath p) e)
    end)) w.
Proof. reflexivity. Qed.

Lemma rw_Get_open (w : World) (e : IndexEntry) :
  faults w = [] -> rw_Get e (open_state w) = (Ok tt, open_state w).
Proof. destruct w as [r b d c f k]; simpl; intros ->. reflexivity. Qed.

Lemma archive_set_rw (w : World) (i : list IndexEntry) :
  archive (set_rw (Some i) w) = i.
Proof. reflexivity. Qed.

(** With a store that reports no error, [Open] of a path hands out a read
    handle on the live entry with the normalized name, and fails with
    [ErrNotExist] when there is none (a synthetic directory cannot be
    opened). *)
Theorem Open_healthy (w : World) (p : str) :
  faults w = [] ->
  fst (Open p w) =
    match Find (Filter (archive w)) (normalizePath p) with
    | Some e => Ok (ReadFile (normalizePath p) e)
    | None => Err ErrNotExist
    end.
Proof.
  intros Hf. rewrite Open_unfold, open_index_healthy by exact Hf.
  destruct (Find (Filter (archive w)) (normalizePath p)) as [e|]; [|reflexivity].
  unfold bind at 1. rewrite rw_Get_open by exact Hf. reflexivity.
Qed.

(** Create, then read back: with no busy writer, a store that reports no
    error and a writer not closed, after [Create p] both [Stat p] and
    [Open p] find the new
    header (mode 0666, the creation time), even when the archive already
    held an entry or a tombstone with that name. *)
Theorem Create_then_Stat_Open (w : World) (p : str) :
  fileWriteModeOpen w = false -> faults w = [] -> writer_closed w = false ->
  fst (Stat p (snd (Create p w))) = Ok (EntryInfo (mkEntry (normalizePath p) 438 (clock w) 0)) /\
  fst (Open p (snd (Create p w))) =
    Ok (ReadFile (normalizePath p) (mkEntry (normalizePath p) 438 (clock w) 0)).
Proof.
  intros Hb Hf Hk. rewrite Create_healthy_any by assumption. simpl snd.
  set (h := mkEntry (normalizePath p) 438 (clock w) 0).
  set (w1 := set_busy true (set_rw (Some (archive w ++ [h])) (open_state w))).
  assert (Hf1 : faults w1 = []) by exact Hf.
  assert (Hfind : Find (Filter (archive w1)) (normalizePath p) = Some h).
  { change (Find (Filter (archive w ++ [h])) (Name h) = Some h).
    rewrite Find_Filter_snoc_same. reflexivity. }
  split.
  - unfold Stat. cbv zeta. rewrite open_index_healthy by exact Hf1. rewrite Hfind. reflexivity.
  - rewrite Open_unfold, open_index_healthy by exact Hf1. rewrite Hfind.
    unfold bind at 1. rewrite rw_Get_open by exact Hf1. reflexivity.
Qed.

(** Remove, then look again: with a store that reports no error and a
    writer not closed, once [Remove p] has tombstoned the live entry named [normalizePath p],
    [Open p] fails with [ErrNotExist], a second [Remove p] fails, and the
    live entry of every other name is what it was. *)
Theorem Remove_then_gone (w : World) (p : str) (e : IndexEntry) :
  faults w = [] -> writer_closed w = false ->
  Find (Filter (archive w)) (normalizePath p) = Some e ->
  fst (Open p (snd (Remove p w))) = Err ErrNotExist /\
  fst (Remove p (snd (Remove p w))) <> Ok tt /\
  (forall n, n <> normalizePath p ->
     Find (Filter (archive (snd (Remove p w)))) n = Find (Filter (archive w)) n).
Proof.
  intros Hf Hk Hfind.
  assert (HR : snd (Remove p w) =
               set_rw (Some (archive w ++ [mkEntry (normalizePath p) 0 (clock w) FlagDeleted]))
                      (open_state w)).
  { unfold Remove. cbv zeta. rewrite open_index_healthy by exact Hf. rewrite Hfind.
    destruct w as [[i|] b d c f k]; unfold writer_closed in Hk; simpl in Hf, Hk; subst f;
      [subst k|]; reflexivity. }
  rewrite HR. set (t := mkEntry (normalizePath p) 0 (clock w) FlagDeleted).
  set (w1 := set_rw (Some (archive w ++ [t])) (open_state w)).
  assert (Hf1 : faults w1 = []) by exact Hf.
  assert (Hgone : Find (Filter (archive w1)) (normalizePath p) = None).
  { change (Find (Filter (archive w ++ [t])) (Name t) = None).
    rewrite Find_Filter_snoc_same. reflexivity. }
  split; [|split].
  - rewrite Open_unfold, open_index_healthy by exact Hf1. rewrite Hgone. reflexivity.
  - unfold Remove. cbv zeta. rewrite open_index_healthy by exact Hf1. rewrite Hgone.
    unfold_M. destruct (getDir (Filter (archive w1)) (normalizePath p)) as [err|[fi|]];
      discriminate.
  - intros n Hn. unfold w1. rewrite archive_set_rw.
    apply Find_Filter_snoc_other. exact Hn.
Qed.

(** The name [getDir] gives a normalized directory: [path.Clean(d + "/")]
    is [d], and ["."] for the root. *)
Lemma Clean_dir_name (segs : list str) :
  Forall good_seg segs ->
  Clean (addTrailingSlash (join_slash segs)) =
  if is_empty (join_slash segs) then lit "." else join_slash segs.
Proof.
  intros Hs. rewrite addTrailingSlash_normal by exact Hs.
  destruct segs as [|x l] eqn:E; [reflexivity|]. rewrite <- E in *.
  assert (Hne : segs <> []) by (subst; discriminate).
  destruct (join_good_shape segs Hs Hne) as [(c & rest & Hj & Hc) _].
  assert (Hsf : Forall (fun x => contains_slash x = false) segs).
  { eapply Forall_impl; [exact Hs|]. intros y (_ & H & _). exact H. }
  assert (Hsplit : split_slash (join_slash segs ++ [slash]) = segs ++ [[]]).
  { rewrite split_slash_app, split_join by assumption. reflexivity. }
  assert (Hc' : ascii_eqb c slash = false).
  { destruct (ascii_eqb c slash) eqn:Ec; [apply ascii_eqb_eq in Ec; congruence|reflexivity]. }
  rewrite Hj. change ((c :: rest) ++ [slash]) with (c :: (rest ++ [slash])).
  rewrite (Clean_relative c _ Hc').
  change (c :: (rest ++ [slash])) with ((c :: rest) ++ [slash]).
  rewrite <- Hj, Hsplit, fold_left_app, (clean_fold_good false segs), app_nil_r by exact Hs.
  cbv zeta. simpl fold_left.
  change (clean_step false (rev segs) []) with (rev segs).
  rewrite rev_involutive, Hj. reflexivity.
Qed.

(** The synthetic directory [Stat] returns: for a store that reports no
    error and a normalized path [d] with no glob metacharacter, no live
    entry named [d], and some live entry one level below it, [Stat]
    returns a directory named [d] (["."] for the root) whose time is the
    largest modification time among the live entries one level below
    [d]. *)
Theorem Stat_synthetic_dir_info (w : World) (p : str) :
  faults w = [] -> glob_safe (normalizePath p) = true ->
  Find (Filter (archive w)) (normalizePath p) = None ->
  List.filter (one_below (addTrailingSlash (normalizePath p))) (Filter (archive w)) <> [] ->
  exists t,
    fst (Stat p w) =
      Ok (DirInfo (if is_empty (normalizePath p) then lit "." else normalizePath p) t) /\
    (exists e, In e (Filter (archive w)) /\ one_below (addTrailingSlash (normalizePath p)) e = true /\
               ModTime e = t) /\
    (forall e, In e (Filter (archive w)) -> one_below (addTrailingSlash (normalizePath p)) e = true ->
               (ModTime e <= t)%N).
Proof.
  intros Hf Hs Hfind Hne.
  destruct (normalizePath_segments p) as (segs & Hg & Hn).
  unfold Stat. cbv zeta. rewrite open_index_healthy by exact Hf. rewrite Hfind.
  rewrite Hn in *. rewrite (getDir_normal segs Hg Hs).
  set (L := addTrailingSlash (join_slash segs)). fold L in Hne.
  destruct (latest_spec _ Hne) as [(e & He & Ht) Hle].
  exists (latest (List.filter (one_below L) (Filter (archive w)))). split; [|split].
  - unfold_M. rewrite <- (Clean_dir_name segs Hg). fold L.
    destruct (List.filter (one_below L) (Filter (archive w))); [contradiction|reflexivity].
  - apply filter_In in He. exists e. tauto.
  - intros e' Hin Hb. apply Hle, filter_In. auto.
Qed.

Lemma NoDup_map_filter {A B} (g : A -> B) (f : A -> bool) (l : list A) :
  NoDup (map g l) -> NoDup (map g (List.filter f l)).
Proof.
  induction l as [|a l IH]; simpl; intros H; [constructor|].
  apply NoDup_cons in H as [Hn H]. destruct (f a); simpl; [|auto].
  apply NoDup_cons. split; [|auto]. intros Hin. apply Hn.
  apply list_elem_of_In in Hin. apply list_elem_of_In.
  apply in_map_iff in Hin as (x & Hx & Hin). apply filter_In in Hin as [Hin _].
  apply in_map_iff. eauto.
Qed.

(** The files [ReadDir] lists: for a store that reports no error and a
    normalized path [d] with no glob metacharacter, the listing ends with
    the entries [e] of the live index named [d + "/" + x] with no ['/'] in
    [x] (all of them, and only them), none a tombstone and no two with the
    same name.  An empty or unknown directory gives no file. *)
Theorem ReadDir_files_exact (w : World) (p : str) :
  faults w = [] -> glob_safe (normalizePath p) = true ->
  exists dirs es,
    fst (ReadDir p w) = Ok (dirs ++ map EntryInfo es) /\
    (forall e, In e es <->
       In e (Filter (archive w)) /\
       exists x, Name e = addTrailingSlash (normalizePath p) ++ x /\ contains_slash x = false) /\
    (forall e, In e es -> is_deleted e = false) /\
    NoDup (map Name es).
Proof.
  intros Hf Hs.
  destruct (normalizePath_segments p) as (segs & Hg & Hn).
  unfold ReadDir. cbv zeta. rewrite open_index_healthy by exact Hf.
  rewrite Hn in *. rewrite (listFiles_normal segs Hg Hs), (listDirs_normal segs Hg Hs).
  unfold_M. eexists _, _. split; [reflexivity|].
  destruct (Filter_live (archive w)) as [Hl Hd]. split; [|split].
  - intros e. rewrite filter_In, one_below_spec. reflexivity.
  - intros e Hin. apply filter_In in Hin as [Hin _]. auto.
  - apply NoDup_map_filter. exact Hd.
Qed.

(* ------------------------------------------------------------------ *)
(** ** Witnesses of the extra properties *)

Lemma Sync_persists_archive_witness :
  rw (snd (Sync (session_with ["a"]))) = None /\
  disk (snd (Sync (session_with ["a"]))) = [file_entry "a" 5].
Proof.
  apply (proj1 (proj2 (proj2 (Sync_persists_archive (session_with ["a"])))));
    reflexivity.
Defined.

Lemma Open_healthy_witness :
  faults (session_with ["a/b"]) = [] /\
  fst (Open (lit "/a/b") (session_with ["a/b"])) = Ok (ReadFile (lit "a/b") (file_entry "a/b" 5)).
Proof.
  assert (Hf : faults (session_with ["a/b"]) = []) by reflexivity.
  split; [exact Hf|]. rewrite (Open_healthy _ _ Hf). vm_compute. reflexivity.
Defined.

Lemma Create_then_Stat_Open_witness :
  fileWriteModeOpen (session_with ["a"]) = false /\ faults (session_with ["a"]) = [] /\
  writer_closed (session_with ["a"]) = false /\
  fst (Stat (lit "a") (snd (Create (lit "a") (session_with ["a"])))) =
    Ok (EntryInfo (mkEntry (normalizePath (lit "a")) 438 (clock (session_with ["a"])) 0)) /\
  fst (Open (lit "a") (snd (Create (lit "a") (session_with ["a"])))) =
    Ok (ReadFile (normalizePath (lit "a"))
                 (mkEntry (normalizePath (lit "a")) 438 (clock (session_with ["a"])) 0)).
Proof.
  assert (Hb : fileWriteModeOpen (session_with ["a"]) = false) by reflexivity.
  assert (Hf : faults (session_with ["a"]) = []) by reflexivity.
  assert (Hk : writer_closed (session_with ["a"]) = false) by reflexivity.
  split; [exact Hb|]. split; [exact Hf|]. split; [exact Hk|].
  exact (Create_then_Stat_Open (session_with ["a"]) (lit "a") Hb Hf Hk).
Defined.

Lemma Remove_then_gone_witness :
  faults (session_with ["a"; "b"]) = [] /\ writer_closed (session_with ["a"; "b"]) = false /\
  Find (Filter (archive (session_with ["a"; "b"]))) (normalizePath (lit "a")) =
    Some (file_entry "a" 5) /\
  fst (Open (lit "a") (snd (Remove (lit "a") (session_with ["a"; "b"])))) = Err ErrNotExist /\
  fst (Remove (lit "a") (snd (Remove (lit "a") (session_with ["a"; "b"])))) <> Ok tt.
Proof.
  assert (Hf : faults (session_with ["a"; "b"]) = []) by reflexivity.
  assert (Hfind : Find (Filter (archive (session_with ["a"; "b"]))) (normalizePath (lit "a")) =
                  Some (file_entry "a" 5)) by (vm_compute; reflexivity).
  assert (Hk : writer_closed (session_with ["a"; "b"]) = false) by reflexivity.
  destruct (Remove_then_gone _ _ _ Hf Hk Hfind) as (H1 & H2 & _).
  split; [exact Hf|]. split; [exact Hk|]. split; [exact Hfind|]. split; [exact H1|exact H2].
Defined.

(** Two entries one level below ["a"], written at times 3 and 7. *)
Definition two_times : World :=
  mkWorld (Some [mkEntry (lit "a/x") 438 3 0; mkEntry (lit "a/y") 438 7 0]) false [] 9 [] false.

Lemma Stat_synthetic_dir_info_witness :
  faults two_times = [] /\ glob_safe (normalizePath (lit "a")) = true /\
  Find (Filter (archive two_times)) (normalizePath (lit "a")) = None /\
  List.filter (one_below (addTrailingSlash (normalizePath (lit "a")))) (Filter (archive two_times)) <> [] /\
  exists t, fst (Stat (lit "a") two_times) =
              Ok (DirInfo (if is_empty (normalizePath (lit "a")) then lit "." else normalizePath (lit "a")) t).
Proof.
  assert (H1 : faults two_times = []) by reflexivity.
  assert (H2 : glob_safe (normalizePath (lit "a")) = true) by (vm_compute; reflexivity).
  assert (H3 : Find (Filter (archive two_times)) (normalizePath (lit "a")) = None)
    by (vm_compute; reflexivity).
  assert (H4 : List.filter (one_below (addTrailingSlash (normalizePath (lit "a"))))
                 (Filter (archive two_times)) <> []) by (vm_compute; discriminate).
  destruct (Stat_synthetic_dir_info _ _ H1 H2 H3 H4) as (t & Ht & _).
  split; [exact H1|]. split; [exact H2|]. split; [exact H3|]. split; [exact H4|].
  exists t. exact Ht.
Defined.

Lemma ReadDir_files_exact_witness :
  faults (session_with ["a/b"; "a/c/d"]) = [] /\ glob_safe (normalizePath (lit "a")) = true /\
  exists dirs es,
    fst (ReadDir (lit "a") (session_with ["a/b"; "a/c/d"])) = Ok (dirs ++ map EntryInfo es) /\
    In (file_entry "a/b" 5) es.
Proof.
  assert (H1 : faults (session_with ["a/b"; "a/c/d"]) = []) by reflexivity.
  assert (H2 : glob_safe (normalizePath (lit "a")) = true) by (vm_compute; reflexivity).
  destruct (ReadDir_files_exact _ _ H1 H2) as (dirs & es & Hrd & Hes & _).
  split; [exact H1|]. split; [exact H2|]. exists dirs, es. split; [exact Hrd|].
  apply Hes. split; [vm_compute; auto|].
  exists (lit "b"). vm_compute. auto.
Defined.

(** Every operation that normalizes its path treats [p] and
    [normalizePath p] alike: [normalizePath] is idempotent, so [Stat],
    [ReadDir], [Remove] and [OpenFile] (hence [Create] and [Open]) give
    the same result and the same state for both spellings, whatever the
    state and whatever the store reports. *)
Theorem path_spellings_agree (p : str) :
  normalizePath (normalizePath p) = normalizePath p /\
  (forall (w : World) (flag : Z) (mode : N),
     Stat (normalizePath p) w = Stat p w /\
     ReadDir (normalizePath p) w = ReadDir p w /\
     Remove (normalizePath p) w = Remove p w /\
     OpenFile (normalizePath p) flag mode w = OpenFile p flag mode w).
Proof.
  split; [apply normalizePath_idem|]. intros w flag mode.
  unfold Stat, ReadDir, Remove, OpenFile. rewrite !normalizePath_idem. auto.
Qed.

(** [keeps_busy m]: [m] leaves the writer-busy flag as it was. *)
Definition keeps_busy {A} (m : M A) : Prop :=
  forall w, fileWriteModeOpen (snd (m w)) = fileWriteModeOpen w.

Lemma keeps_busy_of {A} (m : M A) : keeps m -> keeps_busy m.
Proof. intros H w. apply H. Qed.

Lemma keeps_busy_bind {A B} (m : M A) (k : A -> M B) :
  keeps_busy m -> (forall a, keeps_busy (k a)) -> keeps_busy (bind m k).
Proof.
  intros Hm Hk w. unfold bind. specialize (Hm w).
  destruct (m w) as [[a|e] w'] eqn:E; simpl in *; [rewrite Hk|]; exact Hm.
Qed.

Lemma keeps_busy_with_rw {A} (k : list IndexEntry -> M A) :
  (forall i, keeps_busy (k i)) -> keeps_busy (with_rw k).
Proof.
  intros Hk. unfold with_rw. apply keeps_busy_bind; [apply keeps_busy_of, keeps_get|].
  intros w. destruct (rw w); [apply Hk|apply keeps_busy_of, keeps_throw].
Qed.

Lemma keeps_busy_modify (f : World -> World) :
  (forall w, fileWriteModeOpen (f w) = fileWriteModeOpen w) -> keeps_busy (modify f).
Proof. intros H w. apply H. Qed.

Lemma keeps_busy_defer {A} (m : M A) (f : World -> World) :
  keeps_busy m -> (forall w, fileWriteModeOpen (f w) = fileWriteModeOpen w) ->
  keeps_busy (defer m f).
Proof.
  intros Hm Hf w. specialize (Hm w). unfold defer.
  destruct (m w) as [r w']. simpl in *. rewrite Hf. exact Hm.
Qed.

Lemma keeps_busy_ignore {A} (m : M A) : keeps_busy m -> keeps_busy (ignore m).
Proof. intros H w. apply H. Qed.

Lemma keeps_busy_check_writer : keeps_busy check_writer.
Proof. intros w. unfold check_writer, bind, get. destruct (wclosed w); reflexivity. Qed.

Create HintDb busy.
#[local] Hint Resolve keeps_busy_check_writer : busy.
#[local] Hint Extern 3 (keeps_busy _) => apply keeps_busy_of; auto 20 with keeps : busy.
#[local] Hint Extern 1 (keeps_busy (bind _ _)) => apply keeps_busy_bind; [|intro] : busy.
#[local] Hint Extern 1 (keeps_busy (with_rw _)) => apply keeps_busy_with_rw; intro : busy.
#[local] Hint Extern 1 (keeps_busy (modify _)) =>
  apply keeps_busy_modify; intro; reflexivity : busy.
#[local] Hint Extern 1 (keeps_busy (defer _ _)) =>
  apply keeps_busy_defer; [|intro; reflexivity] : busy.
#[local] Hint Extern 1 (keeps_busy (ignore _)) => apply keeps_busy_ignore : busy.
#[local] Hint Extern 2 (keeps_busy (match ?x with _ => _ end)) => destruct x : busy.
#[local] Hint Extern 2 (keeps_busy (if ?x then _ else _)) => destruct x : busy.

Lemma keeps_busy_Remove (p : str) : keeps_busy (Remove p).
Proof. unfold Remove, time_Now, rw_WriteHeader. auto 20 with busy. Qed.

Lemma keeps_busy_Sync : keeps_busy Sync.
Proof. unfold Sync, ensureClosed, rw_Close, f_Close. auto 20 with busy. Qed.

(** With the writer busy, [OpenFile] leaves it busy and hands out no
    handle for a create. *)
Lemma busy_OpenFile (p : str) (flag : Z) (mode : N) (w : World) :
  fileWriteModeOpen w = true ->
  fileWriteModeOpen (snd (OpenFile p flag mode w)) = true /\
  (has flag O_CREATE = true -> forall h, fst (OpenFile p flag mode w) <> Ok h).
Proof.
  intros Hb.
  enough (H : let (r, w') := OpenFile p flag mode w in
              fileWriteModeOpen w' = true /\ (has flag O_CREATE = true -> forall h, r <> Ok h))
    by (destruct (OpenFile p flag mode w); exact H).
  unfold OpenFile. cbv zeta.
  destruct (has flag O_CREATE && negb (has flag O_TRUNC)) eqn:Ec.
  { split; [exact Hb|]. intros _ h. discriminate. }
  unfold bind at 1. destruct (ensureOpen w) as [r w'] eqn:E.
  apply ensureOpen_keeps in E as (Hb' & _ & _ & _). rewrite Hb in Hb'.
  destruct r as [[]|e]; [|split; [exact Hb'|intros _ h; discriminate]].
  destruct (has flag O_CREATE).
  - unfold bind, get. rewrite Hb'. split; [exact Hb'|intros _ h; discriminate].
  - destruct (keeps_openFile (normalizePath p) flag mode w') as [_ K].
    destruct (openFile (normalizePath p) flag mode w') as [r2 w2]. simpl in K.
    split; [rewrite K; exact Hb'|discriminate].
Qed.

Lemma keeps_Stat (p : str) : keeps (Stat p).
Proof. unfold Stat. auto 20 with keeps. Qed.

Lemma keeps_ReadDir (p : str) : keeps (ReadDir p).
Proof. unfold ReadDir. auto 20 with keeps. Qed.

Lemma keeps_MkdirAll (p : str) (perm : N) : keeps (MkdirAll p perm).
Proof. unfold MkdirAll. auto 20 with keeps. Qed.

Lemma keeps_busy_true_call (c : Call) (w : World) :
  fileWriteModeOpen w = true -> fileWriteModeOpen (snd (call c w)) = true.
Proof.
  intros Hb. destruct c as [p|p|p perm|p|a b|p flag mode| |n e b|f]; unfold call.
  - rewrite (keeps_busy_ignore _ (keeps_busy_of _ (keeps_Stat p)) w). exact Hb.
  - rewrite (keeps_busy_ignore _ (keeps_busy_of _ (keeps_ReadDir p)) w). exact Hb.
  - rewrite (keeps_busy_of _ (keeps_MkdirAll p perm) w). exact Hb.
  - rewrite keeps_busy_Remove. exact Hb.
  - exact Hb.
  - apply busy_OpenFile. exact Hb.
  - rewrite keeps_busy_Sync. exact Hb.
  - destruct b; exact Hb.
  - exact Hb.
Qed.

Lemma keeps_busy_true_run (cs : list Call) (w : World) :
  fileWriteModeOpen w = true -> fileWriteModeOpen (snd (run cs w)) = true.
Proof.
  revert w. induction cs as [|c cs IH]; intros w Hb; [exact Hb|]. simpl.
  unfold bind, ignore. apply IH, keeps_busy_true_call, Hb.
Qed.

(** A write handle closed while the session is closed (after a [Sync]
    has closed it) leaves the writer busy for good: its [closeFunc]
    returns at once without clearing the flag, the handle is then closed
    so closing it again is refused, and whatever calls follow (any
    operation of the filesystem, [Sync], closing read handles, closing the
    handle again) the flag stays set and every [Create] fails. *)
Theorem closeFunc_after_Sync_keeps_busy (w : World) (name : str) (flag : Z)
  (cs : list Call) (q : str) :
  rw w = None -> fileWriteModeOpen w = true ->
  File_Close (WriteFile name flag) false w = (Ok tt, w) /\
  fileWriteModeOpen (snd (run cs w)) = true /\
  (forall h, fst (Create q (snd (run cs w))) <> Ok h).
Proof.
  intros Hrw Hb.
  split; [unfold File_Close, closeFunc; unfold_M; rewrite Hrw; reflexivity|].
  pose proof (keeps_busy_true_run cs w Hb) as Hr.
  split; [exact Hr|].
  apply (proj2 (busy_OpenFile q create_flags 438 _ Hr)).
  exact (proj1 create_flags_bits).
Qed.

Lemma closeFunc_after_Sync_keeps_busy_witness :
  rw (snd (Sync (set_busy true (session_with ["a"])))) = None /\
  fileWriteModeOpen (snd (Sync (set_busy true (session_with ["a"])))) = true /\
  fst (Create (lit "b") (snd (run [CStat (lit "a"); CSync; COpenFile (lit "a") O_RDONLY 0;
                                 CCloseAgain (WriteFile (lit "x") create_flags)]
                               (snd (Sync (set_busy true (session_with ["a"]))))))) <>
    Ok (WriteFile (lit "b") create_flags).
Proof.
  assert (Hr : rw (snd (Sync (set_busy true (session_with ["a"])))) = None) by reflexivity.
  assert (Hb : fileWriteModeOpen (snd (Sync (set_busy true (session_with ["a"])))) = true)
    by reflexivity.
  split; [exact Hr|]. split; [exact Hb|].
  exact (proj2 (proj2 (closeFunc_after_Sync_keeps_busy _ (lit "x") create_flags
    [CStat (lit "a"); CSync; COpenFile (lit "a") O_RDONLY 0;
     CCloseAgain (WriteFile (lit "x") create_flags)] (lit "b") Hr Hb))
    (WriteFile (lit "b") create_flags)).
Defined.

(** Opening a closed session either succeeds, loading the index from the
    backing file, or fails with the store's error and leaves the session
    closed (so the next operation tries to open it again); the backing
    file and the writer-busy flag are untouched either way. *)
Theorem ensureOpen_outcome (w : World) :
  rw w = None ->
  disk (snd (ensureOpen w)) = disk w /\
  fileWriteModeOpen (snd (ensureOpen w)) = fileWriteModeOpen w /\
  ((fst (ensureOpen w) = Ok tt /\ rw (snd (ensureOpen w)) = Some (disk w)) \/
   (exists c, fst (ensureOpen w) = Err (IOError c) /\ rw (snd (ensureOpen w)) = None)).
Proof.
  destruct w as [[i|] b d c f k]; simpl; [discriminate|intros _].
  unfold ensureOpen, underlying_OpenFile, siva_NewReaderWriter, f_Close, io_call; unfold_M; simpl.
  destruct f as [|[x|] f]; simpl.
  - split; [reflexivity|split; [reflexivity|left; split; reflexivity]].
  - split; [reflexivity|split; [reflexivity|right; eexists; split; reflexivity]].
  - destruct f as [|[y|] f]; simpl.
    + split; [reflexivity|split; [reflexivity|left; split; reflexivity]].
    + destruct f as [|[z|] f]; simpl;
        (split; [reflexivity|split; [reflexivity|right; eexists; split; reflexivity]]).
    + split; [reflexivity|split; [reflexivity|left; split; reflexivity]].
Qed.

Lemma ensureOpen_outcome_witness :
  rw (mkWorld None false [file_entry "a" 5] 9 [None; Some 3] false) = None /\
  fst (ensureOpen (mkWorld None false [file_entry "a" 5] 9 [None; Some 3] false)) = Err (IOError 3) /\
  rw (snd (ensureOpen (mkWorld None false [file_entry "a" 5] 9 [None; Some 3] false))) = None.
Proof.
  assert (H : rw (mkWorld None false [file_entry "a" 5] 9 [None; Some 3] false) = None) by reflexivity.
  destruct (ensureOpen_outcome _ H) as (_ & _ & [[Hr _]|(c & Hr & Hn)]);
    [vm_compute in Hr; discriminate|].
  split; [exact H|]. split; [|exact Hn].
  rewrite Hr. vm_compute in Hr. inversion Hr. reflexivity.
Defined.
